(** * PageRank: the transition model, the sampler and the iterative estimator

    A shallow embedding of [pagerank.py] (functions [transition_model],
    [sample_pagerank] and [iterate_pagerank]) and the properties of its
    specification.

    Modelling choices, fixed once for the whole development:
    - Python floats are read as exact rationals ([Qc], canonical rationals
      with Leibniz equality); the tolerance literal [0.0001] is [1/10000].
    - Python exceptions are values of [exn]; a computation returns
      [result A], and [/] raises [ZeroDivisionError] on a zero divisor.
    - The corpus (a [dict] from page to [set] of pages) is never mutated and
      is iterated in insertion order, which the in-place sweep of
      [iterate_pagerank] depends on: it is an association list in that
      order, its link sets are [gset string].  The dictionaries the
      functions build are [gmap string _]: nothing the functions compute
      from them depends on their iteration order once arithmetic is exact.
    - [while True] is run with fuel; [None] means the fuel ran out.
    - The random generator is an explicit argument [rng : nat → nat]; call
      number [i] selects the element at position [rng i mod len] of the
      population, so the draws range over every element of a non-empty
      population (a superset of what the weights allow).
    - A graph of the specification is a corpus with distinct keys
      ([is_dict], as every Python [dict]) whose link targets are keys
      ([closed], the closed-universe invariant of the data model). *)

From Stdlib Require Import QArith Qcanon Lqa.
From stdpp Require Import numbers strings list fin_maps gmap.

Local Open Scope Qc_scope.

(** ** Exceptions and the error monad *)

Inductive exn : Set :=
  | KeyError
  | IndexError
  | ZeroDivisionError
  | ValueError.

Inductive result (A : Type) : Type :=
  | Ok (a : A)
  | Raise (e : exn).
Arguments Ok {A} a.
Arguments Raise {A} e.

#[global] Instance result_ret : MRet result := λ A a, Ok a.
#[global] Instance result_bind : MBind result := λ A B f c,
  match c with
  | Ok a => f a
  | Raise e => Raise e
  end.

(** [for x in l: body], threading the loop state [s]. *)
Fixpoint for_each {A S : Type} (l : list A) (body : A → S → result S) (s : S)
    : result S :=
  match l with
  | [] => Ok s
  | x :: l' => s' ← body x s; for_each l' body s'
  end.

(** ** Numbers *)

Definition Qc_of_nat (n : nat) : Qc := Qc_of_Z (Z.of_nat n).

(** Python's [a / b]. *)
Definition truediv (a b : Qc) : result Qc :=
  if decide (b = 0) then Raise ZeroDivisionError else Ok (a / b).

(** Python's [abs]. *)
Definition Qcabs (x : Qc) : Qc := if decide (x < 0) then - x else x.

Definition tolerance : Qc := Q2Qc (1 # 10000).

(** [range(a, n)] for a start [a : nat] and a Python integer [n]. *)
Definition range (a : nat) (n : Z) : list nat :=
  seq a (Z.to_nat (n - Z.of_nat a)).

(** ** Dictionaries *)

(** The corpus, in insertion order. *)
Abbreviation corpus_t := (list (string * gset string)).

(** [corpus.keys()] / [for key in corpus]. *)
Definition keys (corpus : corpus_t) : list string := corpus.*1.

(** [corpus[page]]. *)
Fixpoint corpus_get (corpus : corpus_t) (page : string) : result (gset string) :=
  match corpus with
  | [] => Raise KeyError
  | (k, links) :: rest =>
      if decide (k = page) then Ok links else corpus_get rest page
  end.

(** [d[k]] on a built dictionary. *)
Definition dict_get {V : Type} (d : gmap string V) (k : string) : result V :=
  match d !! k with
  | Some v => Ok v
  | None => Raise KeyError
  end.

(** [list(d.keys())], [list(d.values())]. *)
Definition dict_keys {V : Type} (d : gmap string V) : list string :=
  (map_to_list d).*1.
Definition dict_values {V : Type} (d : gmap string V) : list V :=
  (map_to_list d).*2.

(** ** [transition_model] *)

Definition transition_model (corpus : corpus_t) (page : string)
    (damping_factor : Qc) : result (gmap string Qc) :=
  let probability_distribution : gmap string Qc := ∅ in
  links ← corpus_get corpus page;
  if decide (size links = 0%nat) then
    prob ← truediv 1 (Qc_of_nat (length (keys corpus)));
    for_each (keys corpus) (λ key pd, Ok (<[key := prob]> pd))
      probability_distribution
  else
    prob1 ← truediv damping_factor (Qc_of_nat (size links));
    prob2 ← truediv (1 - damping_factor) (Qc_of_nat (length (keys corpus)));
    let prob := prob1 + prob2 in
    pd ← for_each (keys corpus) (λ key pd, Ok (<[key := prob2]> pd))
           probability_distribution;
    for_each (elements links) (λ x pd, Ok (<[x := prob]> pd)) pd.

(** ** The random source *)

(** [random.choice(seq)]: [IndexError] on an empty sequence. *)
Definition random_choice {A : Type} (seq : list A) (r : nat) : result A :=
  match seq !! (r mod length seq)%nat with
  | Some x => Ok x
  | None => Raise IndexError
  end.

Definition Qc_sum (l : list Qc) : Qc := foldr Qcplus 0 l.

(** [random.choices(population, weights=weights, k=1)[0]]: [ValueError] when
    the lengths differ or the total weight is not positive, [IndexError]
    when there are no weights at all. *)
Definition random_choices {A : Type} (population : list A) (weights : list Qc)
    (r : nat) : result A :=
  if decide (length weights ≠ length population) then Raise ValueError
  else if decide (weights = []) then Raise IndexError
  else if decide (Qc_sum weights ≤ 0) then Raise ValueError
  else random_choice population r.

(** ** [sample_pagerank] *)

(** Lines 90-102: the start page and the main loop, which leave the visit
    counts in [pr_dict]. *)
Definition sample_visits (corpus : corpus_t) (damping_factor : Qc) (n : Z)
    (rng : nat → nat) : result (gmap string Z) :=
  sample ← random_choice (keys corpus) (rng 0%nat);
  let pr_dict : gmap string Z := {[sample := 1%Z]} in
  st ← for_each (range 1 n) (λ i '(sample, pr_dict),
      new_sample ← transition_model corpus sample damping_factor;
      page_next ← random_choices (dict_keys new_sample)
                     (dict_values new_sample) (rng i);
      pr_dict ← (if decide (page_next ∈ dict_keys pr_dict) then
                   c ← dict_get pr_dict page_next;
                   Ok (<[page_next := (c + 1)%Z]> pr_dict)
                 else Ok (<[page_next := 1%Z]> pr_dict));
      Ok (page_next, pr_dict)) (sample, pr_dict);
  Ok st.2.

(** Lines 104-107.  The loop replaces every integer count by a quotient; the
    counts and the quotients are kept apart by type, the keys are those of
    [pr_dict]. *)
Definition sample_pagerank (corpus : corpus_t) (damping_factor : Qc) (n : Z)
    (rng : nat → nat) : result (gmap string Qc) :=
  pr_dict ← sample_visits corpus damping_factor n rng;
  for_each (dict_keys pr_dict) (λ key out,
      c ← dict_get pr_dict key;
      q ← truediv (Qc_of_Z c) (Qc_of_Z n);
      Ok (<[key := q]> out)) ∅.

(** ** [iterate_pagerank] *)

(** Lines 129-132: the inbound sum of [key]. *)
Definition inbound (corpus : corpus_t) (iterate_dict : gmap string Qc)
    (key : string) : result Qc :=
  for_each (keys corpus) (λ page sum,
      links ← corpus_get corpus page;
      if decide (key ∈ links) then
        r ← dict_get iterate_dict page;
        q ← truediv r (Qc_of_nat (size links));
        Ok (sum + q)
      else Ok sum) 0.

(** Lines 128-136: the body of the [for key in corpus] loop. *)
Definition sweep_step (corpus : corpus_t) (damping_factor : Qc) (key : string)
    (st : gmap string Qc * nat) : result (gmap string Qc * nat) :=
  let '(iterate_dict, count) := st in
  sum ← inbound corpus iterate_dict key;
  base ← truediv (1 - damping_factor) (Qc_of_nat (length (keys corpus)));
  let new := base + damping_factor * sum in
  old ← dict_get iterate_dict key;
  let count :=
    if decide (Qcabs (old - new) < tolerance) then S count else count in
  Ok (<[key := new]> iterate_dict, count).

(** Lines 127-136: one pass of the [while] body, returning the dictionary
    and [count]. *)
Definition sweep (corpus : corpus_t) (damping_factor : Qc)
    (iterate_dict : gmap string Qc) : result (gmap string Qc * nat) :=
  for_each (keys corpus) (sweep_step corpus damping_factor)
    (iterate_dict, 0%nat).

(** Lines 126-138. *)
Fixpoint iterate_loop (fuel : nat) (corpus : corpus_t) (damping_factor : Qc)
    (iterate_dict : gmap string Qc) : option (result (gmap string Qc)) :=
  match fuel with
  | O => None
  | S fuel' =>
      match sweep corpus damping_factor iterate_dict with
      | Raise e => Some (Raise e)
      | Ok (iterate_dict', count) =>
          if decide (count = length (keys corpus)) then Some (Ok iterate_dict')
          else iterate_loop fuel' corpus damping_factor iterate_dict'
      end
  end.

(** Lines 123-124. *)
Definition first_distribution (corpus : corpus_t) : result (gmap string Qc) :=
  for_each (keys corpus) (λ key iterate_dict,
      p ← truediv 1 (Qc_of_nat (length (keys corpus)));
      Ok (<[key := p]> iterate_dict)) ∅.

(** Lines 141-143. *)
Definition dict_total (iterate_dict : gmap string Qc) : result Qc :=
  for_each (dict_keys iterate_dict) (λ key total,
      v ← dict_get iterate_dict key; Ok (total + v)) 0.

(** Lines 141-145. *)
Definition normalization (iterate_dict : gmap string Qc)
    : result (gmap string Qc) :=
  total ← dict_total iterate_dict;
  for_each (dict_keys iterate_dict) (λ key d,
      v ← dict_get d key;
      q ← truediv v total;
      Ok (<[key := q]> d)) iterate_dict.

Definition iterate_pagerank (fuel : nat) (corpus : corpus_t)
    (damping_factor : Qc) : option (result (gmap string Qc)) :=
  match first_distribution corpus with
  | Raise e => Some (Raise e)
  | Ok iterate_dict =>
      match iterate_loop fuel corpus damping_factor iterate_dict with
      | None => None
      | Some (Raise e) => Some (Raise e)
      | Some (Ok iterate_dict) => Some (normalization iterate_dict)
      end
  end.

(** ** Quantities the properties are stated with *)

(** The sum of the values of a dictionary. *)
Definition dict_sum (d : gmap string Qc) : Qc := Qc_sum (dict_values d).

Definition Z_sum (l : list Z) : Z := foldr Z.add 0%Z l.

(** A dictionary is a finite map with distinct keys; a graph is closed when
    every link target is itself a page. *)
Definition is_dict (corpus : corpus_t) : Prop := NoDup (keys corpus).
Definition closed (corpus : corpus_t) : Prop :=
  ∀ page links x, (page, links) ∈ corpus → x ∈ links → x ∈ keys corpus.

(** The pages of the graph, as a set. *)
Definition pages (corpus : corpus_t) : gset string := list_to_set (keys corpus).

(** [for k in l: d[k] = v] *)
Definition dict_fill {V : Type} (l : list string) (v : V) (d : gmap string V)
    : gmap string V :=
  foldl (λ d k, <[k:=v]> d) d l.

(** The value the transition model gives page [p] from a page whose link set
    is [links]: both branches of the source. *)
Definition transition_value (corpus : corpus_t) (links : gset string)
    (d : Qc) (p : string) : Qc :=
  if decide (size links = 0%nat) then 1 / Qc_of_nat (length (keys corpus))
  else if decide (p ∈ links) then
    (1 - d) / Qc_of_nat (length (keys corpus)) + d / Qc_of_nat (size links)
  else (1 - d) / Qc_of_nat (length (keys corpus)).

(** The values as the one-branch description has them: the base probability
    everywhere, raised on the link targets. *)
Definition linked_value (corpus : corpus_t) (links : gset string)
    (d : Qc) (p : string) : Qc :=
  if decide (p ∈ links) then
    (1 - d) / Qc_of_nat (length (keys corpus)) + d / Qc_of_nat (size links)
  else (1 - d) / Qc_of_nat (length (keys corpus)).

(** The pages the walk visits, in order: the same draws as
    [sample_visits], recording the page instead of counting it. *)
Definition walk (corpus : corpus_t) (damping_factor : Qc) (n : Z)
    (rng : nat → nat) : result (list string) :=
  sample ← random_choice (keys corpus) (rng 0%nat);
  st ← for_each (range 1 n) (λ i '(sample, visited),
      new_sample ← transition_model corpus sample damping_factor;
      page_next ← random_choices (dict_keys new_sample)
                     (dict_values new_sample) (rng i);
      Ok (page_next, visited ++ [page_next])) (sample, [sample]);
  Ok st.2.

(** The sum of the visit counts. *)
Definition count_sum (d : gmap string Z) : Z := Z_sum (dict_values d).

(** One more visit to [page]: lines 98-101. *)
Definition bump (page : string) (d : gmap string Z) : gmap string Z :=
  <[page := (default 0 (d !! page) + 1)%Z]> d.

(** The update of the specification, in its words: the sum over the pages
    [q] that link to [p] of [rank(q) / |outlinks(q)|] ... *)
Fixpoint inbound_sum (corpus : corpus_t) (rank : gmap string Qc) (p : string)
    : Qc :=
  match corpus with
  | [] => 0
  | (q, links) :: rest =>
      (if decide (p ∈ links)
       then default 0 (rank !! q) / Qc_of_nat (size links) else 0)
      + inbound_sum rest rank p
  end.

(** ... and [new_rank(p) = (1-d)/|pages| + d * sum], evaluated on the rank
    map [rank]. *)
Definition new_rank (corpus : corpus_t) (d : Qc) (rank : gmap string Qc)
    (p : string) : Qc :=
  (1 - d) / Qc_of_nat (length (keys corpus)) + d * inbound_sum corpus rank p.

(** The reference (simultaneous) update: every page's new rank computed from
    the one map [rank]. *)
Definition reference_update (corpus : corpus_t) (d : Qc)
    (rank : gmap string Qc) : gmap string Qc :=
  list_to_map ((λ p, (p, new_rank corpus d rank p)) <$> keys corpus).

(** The sweep, invariantly: the dictionary keeps the pages as keys, pages
    not yet processed keep their rank, and each processed page holds the
    new rank computed on the dictionary as it stood when it was processed. *)
Definition sweep_inv (corpus : corpus_t) (d : Qc) (ranks : gmap string Qc)
    (done : list string) (st : gmap string Qc * nat) : Prop :=
  dom st.1 = pages corpus
  ∧ (∀ q, q ∉ done → st.1 !! q = ranks !! q)
  ∧ ∀ i p, done !! i = Some p →
      ∃ mid : gmap string Qc,
        (∀ q, mid !! q = if decide (q ∈ take i done)
                         then st.1 !! q else ranks !! q)
        ∧ st.1 !! p = Some (new_rank corpus d mid p).

(** The rank a sweep leaves at page [k], as a plain fraction. *)
Definition swept_rank (r : result (gmap string Qc * nat)) (k : string)
    : option Q :=
  match r with
  | Ok (m, _) => this <$> m !! k
  | Raise _ => None
  end.

(** The teleport share [(1-d)/|pages|]. *)
Definition base_rank (corpus : corpus_t) (d : Qc) : Qc :=
  (1 - d) / Qc_of_nat (length (keys corpus)).

(** ** Example graphs *)

Definition half : Qc := Q2Qc (1 # 2).

(** One page without links. *)
Definition single_page : corpus_t := [("A", ∅)]%string.
(** [A → B], [B → A]. *)
Definition two_cycle : corpus_t := [("A", {["B"]}); ("B", {["A"]})]%string.
(** [A → B], [B → C], [C] dangling. *)
Definition chain : corpus_t := [("A", {["B"]}); ("B", {["C"]}); ("C", ∅)]%string.

(** Page [p] has settled between the rank maps [before] and [after]: its
    rank changed by less than the tolerance (line 134). *)
Definition settled (before after : gmap string Qc) (p : string) : Prop :=
  ∃ a b, before !! p = Some a ∧ after !! p = Some b
       ∧ Qcabs (a - b) < tolerance.

(** The weight that flows into [p] when every page has rank 1: the sum over
    the pages [q] linking to [p] of [1 / |outlinks(q)|]. *)
Definition in_weight (corpus : corpus_t) (p : string) : Qc :=
  inbound_sum corpus (dict_fill (keys corpus) 1 ∅) p.

(** *** Quantities of the termination argument *)

(** The rank of [k] in a rank map. *)
Definition val (m : gmap string Qc) (k : string) : Qc := default 0 (m !! k).

(** The change of the rank of [k] between two rank maps. *)
Definition change (before after : gmap string Qc) (k : string) : Qc :=
  val after k - val before k.

(** The share of its rank that a page with link set [links] passes to [p]:
    [1/|links|] when it links to [p]. *)
Definition link_share (links : gset string) (p : string) : Qc :=
  if decide (p ∈ links) then 1 / Qc_of_nat (size links) else 0.

(** The share of its rank that such a page passes to the pages [targets]. *)
Definition flow_to (targets : list string) (links : gset string) : Qc :=
  Qc_sum (link_share links <$> targets).

(** The size of [f] as seen from [p]: every page weighted by its share to
    [p]. *)
Fixpoint asum (p : string) (c : corpus_t) (f : string → Qc) : Qc :=
  match c with
  | [] => 0
  | (j, links) :: rest => link_share links p * Qcabs (f j) + asum p rest f
  end.

(** The norm in which a sweep contracts: every page weighted by 1 minus
    [d] times its shares to the pages after it in the key order. *)
Fixpoint wnorm (d : Qc) (c : corpus_t) (f : string → Qc) : Qc :=
  match c with
  | [] => 0
  | (k, links) :: post =>
      (1 - d * flow_to (keys post) links) * Qcabs (f k) + wnorm d post f
  end.

(** Every page weighted by its shares to the pages up to itself; [pre] are
    the pages before [c]. *)
Fixpoint unorm (pre : list string) (c : corpus_t) (f : string → Qc) : Qc :=
  match c with
  | [] => 0
  | (k, links) :: post =>
      flow_to (pre ++ [k]) links * Qcabs (f k) + unorm (pre ++ [k]) post f
  end.

(** Every page of [c] weighted by its shares to the pages [targets]. *)
Fixpoint cross (targets : list string) (c : corpus_t) (f : string → Qc) : Qc :=
  match c with
  | [] => 0
  | (k, links) :: post =>
      flow_to targets links * Qcabs (f k) + cross targets post f
  end.

(** ** [crawl] *)

(** [pages[k] = v] on the corpus: an existing key keeps its place, a new key
    goes last. *)
Fixpoint corpus_set (corpus : corpus_t) (k : string) (v : gset string)
    : corpus_t :=
  match corpus with
  | [] => [(k, v)]
  | (k', v') :: rest =>
      if decide (k' = k) then (k, v) :: rest
      else (k', v') :: corpus_set rest k v
  end.

(** [s.endswith(suffix)]. *)
Definition endswith (s suffix : string) : bool :=
  let n := String.length s in
  let m := String.length suffix in
  (m <=? n)%nat && String.eqb (String.substring (n - m) m s) suffix.

Definition is_html (filename : string) : bool := endswith filename ".html".

(** The directory is given by what [os.listdir] and [open(...).read()]
    return on it: the names in listing order, each with the text of the
    file.  [findall contents] stands for the [re.findall] of line 38: the
    [href] targets of the anchors in [contents], in order. *)
Section crawl.
Variable findall : string → list string.

(** Lines 33-39. *)
Definition extract_links (listing : list (string * string)) (pages : corpus_t)
    : result corpus_t :=
  for_each listing (λ '(filename, contents) pages,
      if negb (is_html filename) then Ok pages
      else
        let links := findall contents in
        Ok (corpus_set pages filename (list_to_set links ∖ {[filename]})))
    pages.

(** Lines 42-46. *)
Definition restrict_links (pages : corpus_t) : result corpus_t :=
  for_each (keys pages) (λ filename pages,
      links ← corpus_get pages filename;
      Ok (corpus_set pages filename
            (filter (λ link, link ∈ keys pages) links))) pages.

Definition crawl (listing : list (string * string)) : result corpus_t :=
  let pages : corpus_t := [] in
  pages ← extract_links listing pages;
  restrict_links pages.
End crawl.

(** What the first loop of [crawl] leaves in [pages]. *)
Definition extracted (findall : string → list string)
    (listing : list (string * string)) (pages : corpus_t) : Prop :=
  is_dict pages
  ∧ (∀ f, f ∈ keys pages ↔ f ∈ listing.*1 ∧ is_html f = true)
  ∧ (∀ f links, corpus_get pages f = Ok links →
       (f ∉ links)
       ∧ ∃ contents, (f, contents) ∈ listing
           ∧ links = list_to_set (findall contents) ∖ {[f]})
  ∧ (NoDup listing.*1 → keys pages = filter (λ f, is_html f = true) listing.*1).

(** The constants of [main]. *)
Definition DAMPING : Qc := Q2Qc (85 # 100).
Definition SAMPLES : Z := 10000.

(** Lines 13, 14 and 18 of [main]: the two rank maps it goes on to print,
    for the directory, the random source and the fuel of the loop. *)
Definition main_ranks (findall : string → list string)
    (listing : list (string * string)) (rng : nat → nat) (fuel : nat)
    : option (result (gmap string Qc * gmap string Qc)) :=
  match crawl findall listing with
  | Raise e => Some (Raise e)
  | Ok corpus =>
      match sample_pagerank corpus DAMPING SAMPLES rng with
      | Raise e => Some (Raise e)
      | Ok sampled =>
          match iterate_pagerank fuel corpus DAMPING with
          | None => None
          | Some (Raise e) => Some (Raise e)
          | Some (Ok iterated) => Some (Ok (sampled, iterated))
          end
      end
  end.

(** A small directory: [1.html] links to [2.html], to itself and to a page
    outside the directory; [notes.txt] is no page. *)
Definition demo_findall (contents : string) : list string :=
  if String.eqb contents "one" then ["2.html"; "1.html"; "x.html"]%string
  else if String.eqb contents "two" then ["1.html"]%string
  else ["2.html"]%string.
Definition demo_listing : list (string * string) :=
  [("1.html", "one"); ("notes.txt", "txt"); ("2.html", "two")]%string.

(** * Loops *)

Section for_each.
Context {A S : Type}.
Implicit Types (l : list A) (body : A → S → result S) (s : S).

Lemma for_each_app l1 l2 body s :
  for_each (l1 ++ l2) body s = s' ← for_each l1 body s; for_each l2 body s'.
Proof.
  revert s. induction l1 as [|x l1 IH]; intros s; simpl; [done|].
  destruct (body x s) as [s'|e]; simpl; [apply IH|done].
Qed.

(** A loop whose body cannot raise is a left fold. *)
Lemma for_each_pure l (f : S → A → S) s :
  for_each l (λ x s, Ok (f s x)) s = Ok (foldl f s l).
Proof. revert s. induction l as [|x l IH]; intros s; simpl; [done|apply IH]. Qed.

(** The invariant rule: [I done s] relates the state to the elements
    already processed. *)
Lemma for_each_inv (I : list A → S → Prop) l body s :
  I [] s →
  (∀ done x rest s, l = done ++ x :: rest → I done s →
     ∃ s', body x s = Ok s' ∧ I (done ++ [x]) s') →
  ∃ s', for_each l body s = Ok s' ∧ I l s'.
Proof.
  intros H0 Hstep.
  cut (∀ rest done s, l = done ++ rest → I done s →
         ∃ s', for_each rest body s = Ok s' ∧ I l s').
  { intros Hcut. apply (Hcut l [] s); done. }
  induction rest as [|x rest IH]; intros done s0 Hl HI; simpl.
  - exists s0. split; [done|]. by rewrite Hl, app_nil_r.
  - destruct (Hstep done x rest s0 Hl HI) as (s1 & -> & HI1); simpl.
    apply (IH (done ++ [x])); [|done]. by rewrite <-app_assoc.
Qed.

(** The same rule when the loop may raise: the invariant holds of whatever
    state the loop returns. *)
Lemma for_each_inv_partial (I : list A → S → Prop) l body s s' :
  I [] s →
  (∀ done x rest s s', l = done ++ x :: rest → I done s →
     body x s = Ok s' → I (done ++ [x]) s') →
  for_each l body s = Ok s' → I l s'.
Proof.
  intros H0 Hstep.
  cut (∀ rest done s, l = done ++ rest → I done s →
         for_each rest body s = Ok s' → I l s').
  { intros Hcut. apply (Hcut l [] s); done. }
  induction rest as [|x rest IH]; intros done s0 Hl HI; simpl.
  - intros [= <-]. by rewrite Hl, app_nil_r.
  - destruct (body x s0) as [s1|e] eqn:Hb; simpl; [|done].
    apply (IH (done ++ [x])); [by rewrite <-app_assoc|by eapply Hstep].
Qed.

(** An exception a loop raises is raised by its body. *)
Lemma for_each_raise l body s e :
  for_each l body s = Raise e → ∃ x s0, x ∈ l ∧ body x s0 = Raise e.
Proof.
  revert s. induction l as [|x l IH]; intros s; simpl; [done|].
  destruct (body x s) as [s1|e1] eqn:Hb; simpl.
  - intros (y & s0 & Hy & He)%IH. exists y, s0. split; [by right|done].
  - intros [= ->]. exists x, s. split; [by left|done].
Qed.
End for_each.

(** * Exact arithmetic *)

Lemma Qc_of_nat_S n : Qc_of_nat (S n) = 1 + Qc_of_nat n.
Proof.
  unfold Qc_of_nat. rewrite Nat2Z.inj_succ, <-Z.add_1_l, Z2Qc_inj_add.
  by rewrite Z2Qc_inj_1.
Qed.

Lemma Qc_of_nat_0 : Qc_of_nat 0 = 0.
Proof. apply Z2Qc_inj_0. Qed.

Lemma Qc_of_nat_pos n : (0 < n)%nat → 0 < Qc_of_nat n.
Proof.
  intros Hn. unfold Qc_of_nat. rewrite <-Z2Qc_inj_0.
  apply (proj1 (Z2Qc_inj_lt 0 (Z.of_nat n))). lia.
Qed.

Lemma Qc_of_nat_ne_0 n : n ≠ 0%nat → Qc_of_nat n ≠ 0.
Proof.
  intros Hn Heq. assert (0 < Qc_of_nat n) as Hlt by (apply Qc_of_nat_pos; lia).
  rewrite Heq in Hlt. by apply (irreflexivity Qclt 0).
Qed.

Lemma truediv_ok a b : b ≠ 0 → truediv a b = Ok (a / b).
Proof. intros Hb. unfold truediv. by rewrite decide_False. Qed.

Lemma truediv_zero a : truediv a 0 = Raise ZeroDivisionError.
Proof. unfold truediv. by rewrite decide_True. Qed.

Lemma Qc_sum_cons x l : Qc_sum (x :: l) = x + Qc_sum l.
Proof. done. Qed.

Lemma Qc_sum_app l1 l2 : Qc_sum (l1 ++ l2) = Qc_sum l1 + Qc_sum l2.
Proof.
  induction l1 as [|x l1 IH]; simpl; [by rewrite Qcplus_0_l|].
  rewrite IH. ring.
Qed.

Lemma Qc_sum_perm l1 l2 : l1 ≡ₚ l2 → Qc_sum l1 = Qc_sum l2.
Proof.
  induction 1 as [|x l1 l2 _ IH|x y l|l1 l2 l3 _ IH1 _ IH2]; simpl;
    [done|by rewrite IH|ring|congruence].
Qed.

Lemma Qc_sum_scale (t : Qc) l : Qc_sum ((λ v, v / t) <$> l) = Qc_sum l / t.
Proof.
  induction l as [|x l IH].
  - unfold Qcdiv. simpl. ring.
  - rewrite fmap_cons, !Qc_sum_cons, IH. unfold Qcdiv. ring.
Qed.

Lemma Qc_sum_pos l : l ≠ [] → (∀ x, x ∈ l → 0 < x) → 0 < Qc_sum l.
Proof.
  induction l as [|x l IH]; [done|]. intros _ Hpos. rewrite Qc_sum_cons.
  apply Qcplus_pos_nonneg; [apply Hpos; by left|].
  destruct l as [|y l]; [done|].
  apply Qclt_le_weak, IH; [done|]. intros z Hz. apply Hpos. by right.
Qed.

(** * Sums over dictionaries *)

Lemma dict_sum_empty : dict_sum ∅ = 0.
Proof. unfold dict_sum, dict_values. by rewrite map_to_list_empty. Qed.

Lemma dict_sum_insert_None (d : gmap string Qc) k v :
  d !! k = None → dict_sum (<[k:=v]> d) = v + dict_sum d.
Proof.
  intros Hk. unfold dict_sum, dict_values.
  by rewrite (Qc_sum_perm _ _ (fmap_Permutation snd _ _ (map_to_list_insert d k v Hk))).
Qed.

Lemma dict_sum_delete (d : gmap string Qc) k v :
  d !! k = Some v → dict_sum d = v + dict_sum (delete k d).
Proof.
  intros Hk. unfold dict_sum, dict_values.
  by rewrite <-(Qc_sum_perm _ _ (fmap_Permutation snd _ _ (map_to_list_delete d k v Hk))).
Qed.

Lemma dict_sum_insert_Some (d : gmap string Qc) k v old :
  d !! k = Some old → dict_sum (<[k:=v]> d) = dict_sum d + (v - old).
Proof.
  intros Hk. rewrite (dict_sum_delete d k old Hk), <-insert_delete_eq.
  rewrite dict_sum_insert_None by apply lookup_delete_eq. ring.
Qed.

Lemma dict_sum_scale (d : gmap string Qc) t :
  dict_sum ((λ v, v / t) <$> d) = dict_sum d / t.
Proof.
  unfold dict_sum, dict_values. rewrite map_to_list_fmap, <-Qc_sum_scale.
  f_equal. rewrite <-!list_fmap_compose. by apply list_fmap_ext; intros ? [??].
Qed.

Lemma dict_sum_pos (d : gmap string Qc) :
  d ≠ ∅ → (∀ k v, d !! k = Some v → 0 < v) → 0 < dict_sum d.
Proof.
  intros Hne Hpos. apply Qc_sum_pos.
  - unfold dict_values. intros Hnil%fmap_nil_inv. by apply map_to_list_empty_iff in Hnil.
  - intros x ([k v] & -> & Hkv%elem_of_map_to_list)%list_elem_of_fmap. eauto.
Qed.

Section dict_fill.
Context {V : Type}.
Implicit Types (l : list string) (v : V) (d : gmap string V).

Lemma lookup_dict_fill l v d k :
  dict_fill l v d !! k = if decide (k ∈ l) then Some v else d !! k.
Proof.
  revert d. induction l as [|x l IH]; intros d; unfold dict_fill; cbn [foldl].
  - by rewrite decide_False by apply not_elem_of_nil.
  - fold (dict_fill l v (<[x:=v]> d)). rewrite IH.
    destruct (decide (k ∈ l)) as [Hl|Hl].
    + by rewrite decide_True by (by right).
    + destruct (decide (x = k)) as [->|Hne].
      * rewrite lookup_insert_eq. by rewrite decide_True by (by left).
      * rewrite lookup_insert_ne by done. rewrite decide_False; [done|].
        intros [?|?]%elem_of_cons; congruence.
Qed.

Lemma dom_dict_fill l v d : dom (dict_fill l v d) = list_to_set l ∪ dom d.
Proof.
  apply set_eq. intros k. rewrite elem_of_dom, lookup_dict_fill.
  rewrite elem_of_union, elem_of_list_to_set, elem_of_dom.
  destruct (decide (k ∈ l)); [|tauto].
  split; [by left|by eexists].
Qed.
End dict_fill.

Lemma dict_sum_fill_fresh l v (d : gmap string Qc) :
  NoDup l → (∀ k, k ∈ l → d !! k = None) →
  dict_sum (dict_fill l v d) = Qc_of_nat (length l) * v + dict_sum d.
Proof.
  revert d. induction l as [|x l IH]; intros d Hnd Hfresh.
  - simpl. rewrite Qc_of_nat_0. ring.
  - apply NoDup_cons in Hnd as [Hx Hnd]. cbn [dict_fill foldl length].
    fold (dict_fill l v (<[x:=v]> d)). rewrite IH, Qc_of_nat_S; [|done|].
    + rewrite dict_sum_insert_None by (apply Hfresh; by left). ring.
    + intros k Hk. rewrite lookup_insert_ne by (intros ->; done).
      apply Hfresh. by right.
Qed.

Lemma dict_sum_fill_over l v old (d : gmap string Qc) :
  NoDup l → (∀ k, k ∈ l → d !! k = Some old) →
  dict_sum (dict_fill l v d) = dict_sum d + Qc_of_nat (length l) * (v - old).
Proof.
  revert d. induction l as [|x l IH]; intros d Hnd Hold.
  - simpl. rewrite Qc_of_nat_0. ring.
  - apply NoDup_cons in Hnd as [Hx Hnd]. cbn [dict_fill foldl length].
    fold (dict_fill l v (<[x:=v]> d)). rewrite IH, Qc_of_nat_S; [|done|].
    + rewrite (dict_sum_insert_Some d x v old) by (apply Hold; by left). ring.
    + intros k Hk. rewrite lookup_insert_ne by (intros ->; done).
      apply Hold. by right.
Qed.

(** * The corpus *)

Lemma corpus_get_Ok corpus page links :
  corpus_get corpus page = Ok links → (page, links) ∈ corpus.
Proof.
  induction corpus as [|[k l] corpus IH]; simpl; [done|].
  destruct (decide (k = page)) as [->|Hne].
  - intros [= ->]. by left.
  - intros H. right. by apply IH.
Qed.

Lemma corpus_get_elem corpus page links :
  is_dict corpus → (page, links) ∈ corpus → corpus_get corpus page = Ok links.
Proof.
  unfold is_dict, keys.
  induction corpus as [|[k l] corpus IH]; simpl; [by intros _ ?%elem_of_nil|].
  intros [Hk Hnd]%NoDup_cons [[= <- <-]|Hin]%elem_of_cons.
  - by rewrite decide_True.
  - rewrite decide_False; [by apply IH|].
    intros ->. apply Hk. apply list_elem_of_fmap. by exists (page, links).
Qed.

Lemma corpus_get_key corpus page :
  page ∈ keys corpus → ∃ links, corpus_get corpus page = Ok links.
Proof.
  unfold keys. induction corpus as [|[k l] corpus IH]; simpl.
  - by intros ?%elem_of_nil.
  - intros Hin. destruct (decide (k = page)) as [->|Hne]; [by eexists|].
    apply IH. apply elem_of_cons in Hin as [?|?]; [congruence|done].
Qed.

Lemma corpus_get_in_keys corpus page links :
  corpus_get corpus page = Ok links → page ∈ keys corpus.
Proof.
  intros H%corpus_get_Ok. unfold keys. apply list_elem_of_fmap.
  by exists (page, links).
Qed.

Lemma corpus_get_raise corpus page e :
  corpus_get corpus page = Raise e → e = KeyError.
Proof.
  induction corpus as [|[k l] corpus IH]; simpl; [by intros [= <-]|].
  by destruct (decide (k = page)).
Qed.

Lemma keys_length_pos corpus page :
  page ∈ keys corpus → Qc_of_nat (length (keys corpus)) ≠ 0.
Proof.
  intros Hin. apply Qc_of_nat_ne_0. by destruct (keys corpus); [apply elem_of_nil in Hin|].
Qed.

Lemma size_links_ne_0 (links : gset string) x :
  x ∈ links → Qc_of_nat (size links) ≠ 0.
Proof.
  intros Hx. apply Qc_of_nat_ne_0. intros Hz%size_empty_inv%leibniz_equiv.
  subst links. by apply not_elem_of_empty in Hx.
Qed.

(** * [transition_model] in closed form *)

Lemma transition_model_dangling corpus page d links :
  corpus_get corpus page = Ok links → size links = 0%nat →
  transition_model corpus page d
  = Ok (dict_fill (keys corpus) (1 / Qc_of_nat (length (keys corpus))) ∅).
Proof.
  intros Hget Hsz. unfold transition_model. rewrite Hget. cbn [mbind result_bind].
  rewrite decide_True by done.
  rewrite truediv_ok by (eapply keys_length_pos, corpus_get_in_keys, Hget).
  apply (for_each_pure (keys corpus) (λ pd key, <[key:=_]> pd)).
Qed.

Lemma transition_model_links corpus page d links :
  corpus_get corpus page = Ok links → size links ≠ 0%nat →
  transition_model corpus page d
  = Ok (dict_fill (elements links)
          (d / Qc_of_nat (size links)
           + (1 - d) / Qc_of_nat (length (keys corpus)))
          (dict_fill (keys corpus)
             ((1 - d) / Qc_of_nat (length (keys corpus))) ∅)).
Proof.
  intros Hget Hsz. unfold transition_model. rewrite Hget. cbn [mbind result_bind].
  rewrite decide_False by done.
  rewrite !truediv_ok by
    ((by apply Qc_of_nat_ne_0)
     || eapply keys_length_pos, corpus_get_in_keys, Hget).
  cbn [mbind result_bind].
  rewrite (for_each_pure (keys corpus) (λ pd key, <[key:=_]> pd)).
  apply (for_each_pure (elements links) (λ pd key, <[key:=_]> pd)).
Qed.

Lemma transition_model_lookup corpus page d links p :
  closed corpus → corpus_get corpus page = Ok links →
  ∃ pd, transition_model corpus page d = Ok pd
      ∧ pd !! p = if decide (p ∈ keys corpus)
                  then Some (transition_value corpus links d p) else None.
Proof.
  intros Hcl Hget. unfold transition_value.
  destruct (decide (size links = 0%nat)) as [Hsz|Hsz].
  - rewrite (transition_model_dangling _ _ _ _ Hget Hsz). eexists; split; [done|].
    rewrite lookup_dict_fill. by destruct (decide (p ∈ keys corpus)).
  - rewrite (transition_model_links _ _ _ _ Hget Hsz). eexists; split; [done|].
    rewrite !lookup_dict_fill, lookup_empty.
    destruct (decide (p ∈ elements links)) as [Hp|Hp].
    + apply elem_of_elements in Hp as Hp'. rewrite (decide_True (P:=p ∈ links)) by done.
      rewrite decide_True by eauto using corpus_get_Ok. f_equal. ring.
    + rewrite (decide_False (P:=p ∈ links)) by (by rewrite <-elem_of_elements).
      by destruct (decide (p ∈ keys corpus)).
Qed.

Lemma transition_model_dom corpus page d links pd :
  closed corpus → corpus_get corpus page = Ok links →
  transition_model corpus page d = Ok pd → dom pd = pages corpus.
Proof.
  intros Hcl Hget Htm. apply set_eq. intros p.
  destruct (transition_model_lookup corpus page d links p Hcl Hget)
    as (pd' & Htm' & Hp).
  assert (pd' = pd) as -> by congruence.
  unfold pages. rewrite elem_of_dom, Hp, elem_of_list_to_set.
  destruct (decide (p ∈ keys corpus)); [|split; [by intros []|done]].
  split; [done|by eexists].
Qed.

Lemma transition_model_sum corpus page d links pd :
  is_dict corpus → closed corpus → corpus_get corpus page = Ok links →
  transition_model corpus page d = Ok pd → dict_sum pd = 1.
Proof.
  intros Hnd Hcl Hget Htm.
  pose proof (keys_length_pos _ _ (corpus_get_in_keys _ _ _ Hget)) as HN.
  destruct (decide (size links = 0%nat)) as [Hsz|Hsz].
  - rewrite (transition_model_dangling _ _ _ _ Hget Hsz) in Htm.
    injection Htm as <-. rewrite dict_sum_fill_fresh, dict_sum_empty; [|done|done].
    by field.
  - rewrite (transition_model_links _ _ _ _ Hget Hsz) in Htm.
    injection Htm as <-.
    rewrite (dict_sum_fill_over _ _ ((1 - d) / Qc_of_nat (length (keys corpus)))).
    + rewrite dict_sum_fill_fresh, dict_sum_empty; [|done|done].
      change (length (elements links)) with (size links).
      apply Qc_of_nat_ne_0 in Hsz. by field.
    + apply NoDup_elements.
    + intros k Hk%elem_of_elements. rewrite lookup_dict_fill.
      by rewrite decide_True by eauto using corpus_get_Ok.
Qed.

Ltac solve_is_dict :=
  unfold is_dict; apply (bool_decide_unpack _); vm_compute; exact I.
Ltac solve_closed :=
  intros ? ? ? Hin Hx; unfold keys;
  repeat (apply elem_of_cons in Hin as [[= -> ->]|Hin]);
  [..|by apply elem_of_nil in Hin];
  first [by apply not_elem_of_empty in Hx
        | apply elem_of_singleton in Hx as ->;
          apply (bool_decide_unpack _); vm_compute; exact I].

Lemma single_page_dict : is_dict single_page.
Proof. solve_is_dict. Qed.
Lemma single_page_closed : closed single_page.
Proof. solve_closed. Qed.
Lemma two_cycle_dict : is_dict two_cycle.
Proof. solve_is_dict. Qed.
Lemma two_cycle_closed : closed two_cycle.
Proof. solve_closed. Qed.
Lemma chain_dict : is_dict chain.
Proof. solve_is_dict. Qed.
Lemma chain_closed : closed chain.
Proof. solve_closed. Qed.

Lemma half_range : 0 < half < 1.
Proof. done. Qed.

(** * The transition model *)

(** C5.  From a page whose link set is empty the transition model returns
    the uniform distribution: its keys are the pages of the graph and every
    page is mapped to exactly [1/|pages|], whatever the damping factor. *)
Theorem transition_model_dangling_uniform corpus page d :
  corpus_get corpus page = Ok ∅ →
  ∃ pd, transition_model corpus page d = Ok pd
      ∧ dom pd = pages corpus
      ∧ (∀ p, p ∈ keys corpus →
           pd !! p = Some (1 / Qc_of_nat (length (keys corpus))))
      ∧ ∀ d', transition_model corpus page d' = Ok pd.
Proof.
  intros Hget.
  exists (dict_fill (keys corpus) (1 / Qc_of_nat (length (keys corpus))) ∅).
  split; [by apply (transition_model_dangling _ _ _ ∅)|].
  split; [unfold pages; by rewrite dom_dict_fill, dom_empty_L, union_empty_r_L|].
  split; [|intros d'; by apply (transition_model_dangling _ _ _ ∅)].
  intros p Hp. by rewrite lookup_dict_fill, decide_True.
Qed.

Lemma transition_model_dangling_uniform_witness :
  ∃ pd, transition_model chain "C" half = Ok pd
      ∧ dom pd = pages chain
      ∧ (∀ p, p ∈ keys chain →
           pd !! p = Some (1 / Qc_of_nat (length (keys chain))))
      ∧ ∀ d', transition_model chain "C" d' = Ok pd.
Proof. apply (transition_model_dangling_uniform chain "C" half). reflexivity. Defined.

(** C4, as stated, fails on a dangling page: on the one-page graph with
    damping 1/2 the page gets probability 1, not the base probability
    [(1 - 1/2)/1] that the one-branch description assigns. *)
Lemma transition_model_dangling_not_base :
  is_dict single_page ∧ closed single_page
  ∧ corpus_get single_page "A" = Ok ∅ ∧ 0 ≤ half < 1
  ∧ ∃ pd, transition_model single_page "A" half = Ok pd
        ∧ pd !! "A"%string = Some 1
        ∧ pd !! "A"%string ≠ Some (linked_value single_page ∅ half "A").
Proof.
  split; [apply single_page_dict|]. split; [apply single_page_closed|].
  split; [done|]. split; [done|].
  destruct (transition_model_lookup single_page "A" half ∅ "A"
              single_page_closed eq_refl) as (pd & Htm & Hp).
  exists pd. split; [done|].
  assert (pd !! "A"%string = Some 1) as HA.
  { rewrite Hp. rewrite decide_True by (by left).
    apply (f_equal Some), Qc_is_canon. reflexivity. }
  split; [done|]. rewrite HA. intros Heq%(inj Some).
  apply (f_equal this) in Heq. by vm_compute in Heq.
Qed.

(** C4, amended.  For a closed graph and a page that is one of its keys, the
    transition model returns a map whose keys are exactly the pages of the
    graph and whose values sum to exactly 1.  When the page has outgoing
    links, every page gets [(1-d)/|pages|] and every link target gets
    [(1-d)/|pages| + d/|outlinks|] instead; when it has none, every page
    gets [1/|pages|]. *)
Theorem transition_model_distribution corpus page d links :
  is_dict corpus → closed corpus → corpus_get corpus page = Ok links →
  ∃ pd, transition_model corpus page d = Ok pd
      ∧ dom pd = pages corpus
      ∧ dict_sum pd = 1
      ∧ ∀ p, p ∈ keys corpus →
          pd !! p = Some (if decide (size links = 0%nat)
                          then 1 / Qc_of_nat (length (keys corpus))
                          else linked_value corpus links d p).
Proof.
  intros Hnd Hcl Hget.
  destruct (transition_model_lookup corpus page d links page Hcl Hget)
    as (pd & Htm & _).
  exists pd. split; [done|].
  split; [by eapply transition_model_dom|].
  split; [by eapply transition_model_sum|].
  intros p Hp.
  destruct (transition_model_lookup corpus page d links p Hcl Hget)
    as (pd' & Htm' & Hlk).
  assert (pd' = pd) as -> by congruence.
  by rewrite Hlk, decide_True.
Qed.

Lemma transition_model_distribution_witness :
  ∃ pd, transition_model chain "A" half = Ok pd
      ∧ dom pd = pages chain
      ∧ dict_sum pd = 1
      ∧ ∀ p, p ∈ keys chain →
          pd !! p = Some (if decide (size ({["B"%string]} : gset string) = 0%nat)
                          then 1 / Qc_of_nat (length (keys chain))
                          else linked_value chain {["B"%string]} half p).
Proof.
  apply (transition_model_distribution chain "A" half {["B"%string]});
    [apply chain_dict|apply chain_closed|reflexivity].
Defined.

(** * The sampler *)

Lemma Z_sum_perm l1 l2 : l1 ≡ₚ l2 → Z_sum l1 = Z_sum l2.
Proof.
  induction 1 as [|x l1 l2 _ IH|x y l|l1 l2 l3 _ IH1 _ IH2]; simpl; lia.
Qed.

Lemma count_sum_insert_None (d : gmap string Z) k v :
  d !! k = None → count_sum (<[k:=v]> d) = (v + count_sum d)%Z.
Proof.
  intros Hk. unfold count_sum, dict_values.
  by rewrite (Z_sum_perm _ _ (fmap_Permutation snd _ _ (map_to_list_insert d k v Hk))).
Qed.

Lemma count_sum_bump page (d : gmap string Z) :
  count_sum (bump page d) = (count_sum d + 1)%Z.
Proof.
  unfold bump. destruct (d !! page) as [c|] eqn:Hc; simpl.
  - rewrite <-insert_delete_eq.
    rewrite count_sum_insert_None by apply lookup_delete_eq.
    rewrite <-(insert_id d page c) at 2 by done.
    rewrite <-(insert_delete_eq d).
    rewrite (count_sum_insert_None (delete page d)) by apply lookup_delete_eq.
    lia.
  - rewrite count_sum_insert_None by done. lia.
Qed.

Lemma count_sum_singleton k v : count_sum {[k := v]} = v.
Proof.
  unfold count_sum, dict_values. rewrite map_to_list_singleton. simpl. lia.
Qed.

Lemma bump_pos page (d : gmap string Z) :
  (∀ k c, d !! k = Some c → (0 < c)%Z) →
  ∀ k c, bump page d !! k = Some c → (0 < c)%Z.
Proof.
  intros Hpos k c. unfold bump. destruct (decide (page = k)) as [->|Hne].
  - rewrite lookup_insert_eq. intros [= <-].
    destruct (d !! k) as [c'|] eqn:Hc; simpl; [|lia].
    specialize (Hpos k c' Hc). lia.
  - rewrite lookup_insert_ne by done. apply Hpos.
Qed.

Lemma dom_bump page (d : gmap string Z) : dom (bump page d) = {[page]} ∪ dom d.
Proof. unfold bump. apply dom_insert_L. Qed.

Lemma elem_of_dict_keys {V : Type} (d : gmap string V) k :
  k ∈ dict_keys d ↔ is_Some (d !! k).
Proof.
  unfold dict_keys. rewrite list_elem_of_fmap. split.
  - intros ([k' v] & -> & Hkv%elem_of_map_to_list). by exists v.
  - intros [v Hv]. exists (k, v). split; [done|by apply elem_of_map_to_list].
Qed.

(** Lines 98-101 compute [bump]. *)
Lemma count_visit page (pr_dict : gmap string Z) :
  (if decide (page ∈ dict_keys pr_dict) then
     c ← dict_get pr_dict page; Ok (<[page := (c + 1)%Z]> pr_dict)
   else Ok (<[page := 1%Z]> pr_dict)) = Ok (bump page pr_dict).
Proof.
  unfold bump, dict_get. destruct (decide (page ∈ dict_keys pr_dict)) as [Hin|Hin].
  - apply elem_of_dict_keys in Hin as [c Hc]. by rewrite Hc.
  - rewrite elem_of_dict_keys, <-eq_None_not_Some in Hin. by rewrite Hin.
Qed.

Lemma random_choice_nil {A : Type} r : random_choice ([] : list A) r = Raise IndexError.
Proof. done. Qed.

Lemma random_choice_Ok {A : Type} (seq : list A) r :
  seq ≠ [] → ∃ x, random_choice seq r = Ok x ∧ x ∈ seq.
Proof.
  intros Hne. unfold random_choice.
  destruct (lookup_lt_is_Some_2 seq (r mod length seq)) as [x Hx].
  - apply Nat.mod_upper_bound. by destruct seq.
  - rewrite Hx. exists x. split; [done|]. by eapply list_elem_of_lookup_2.
Qed.

(** The draw from a transition distribution returns a page of the graph. *)
Lemma next_page_Ok corpus sample d r :
  is_dict corpus → closed corpus → sample ∈ keys corpus →
  ∃ new_sample page_next,
    transition_model corpus sample d = Ok new_sample
    ∧ random_choices (dict_keys new_sample) (dict_values new_sample) r
      = Ok page_next
    ∧ page_next ∈ keys corpus.
Proof.
  intros Hnd Hcl Hin. destruct (corpus_get_key _ _ Hin) as [links Hget].
  destruct (transition_model_lookup corpus sample d links sample Hcl Hget)
    as (pd & Htm & Hlk).
  pose proof (transition_model_dom _ _ _ _ _ Hcl Hget Htm) as Hdom.
  pose proof (transition_model_sum _ _ _ _ _ Hnd Hcl Hget Htm) as Hsum.
  assert (dict_keys pd ≠ []) as Hne.
  { intros Hnil. assert (sample ∈ dict_keys pd) as Hs.
    { apply elem_of_dict_keys. rewrite Hlk. by rewrite decide_True. }
    rewrite Hnil in Hs. by apply elem_of_nil in Hs. }
  destruct (random_choice_Ok (dict_keys pd) r Hne) as (x & Hx & Hxin).
  exists pd, x. split; [done|]. split.
  - unfold random_choices.
    rewrite decide_False by (unfold dict_values, dict_keys; rewrite !length_fmap; tauto).
    rewrite decide_False.
    2:{ unfold dict_values, dict_keys in *. intros Hnil%fmap_nil_inv.
        by rewrite Hnil in Hne. }
    rewrite decide_False; [done|].
    fold (dict_sum pd). rewrite Hsum. by apply Qclt_not_le.
  - apply elem_of_dict_keys, elem_of_dom in Hxin. rewrite Hdom in Hxin.
    by apply elem_of_list_to_set in Hxin.
Qed.

Lemma for_each_sim {A S T : Type} (R : list A → S → T → Prop) (l : list A)
    (b1 : A → S → result S) (b2 : A → T → result T) (s : S) (t : T) :
  R [] s t →
  (∀ done x rest s t, l = done ++ x :: rest → R done s t →
     ∃ s' t', b1 x s = Ok s' ∧ b2 x t = Ok t' ∧ R (done ++ [x]) s' t') →
  ∃ s' t', for_each l b1 s = Ok s' ∧ for_each l b2 t = Ok t' ∧ R l s' t'.
Proof.
  intros H0 Hstep.
  cut (∀ rest done s t, l = done ++ rest → R done s t →
         ∃ s' t', for_each rest b1 s = Ok s' ∧ for_each rest b2 t = Ok t'
                ∧ R l s' t').
  { intros Hcut. apply (Hcut l [] s t); done. }
  induction rest as [|x rest IH]; intros done s0 t0 Hl HR; simpl.
  - exists s0, t0. split; [done|]. split; [done|]. by rewrite Hl, app_nil_r.
  - destruct (Hstep done x rest s0 t0 Hl HR) as (s1 & t1 & -> & -> & HR1); simpl.
    apply (IH (done ++ [x])); [|done]. by rewrite <-app_assoc.
Qed.

(** What the main loop establishes, for every [n] and every draw. *)
Lemma sample_visits_walk corpus d n rng :
  is_dict corpus → closed corpus → corpus ≠ [] →
  ∃ pr_dict visited,
    sample_visits corpus d n rng = Ok pr_dict
    ∧ walk corpus d n rng = Ok visited
    ∧ dom pr_dict = list_to_set visited
    ∧ (∀ k c, pr_dict !! k = Some c → (0 < c)%Z)
    ∧ count_sum pr_dict = (1 + Z.of_nat (Z.to_nat (n - 1)))%Z
    ∧ (∀ p, p ∈ visited → p ∈ keys corpus).
Proof.
  intros Hnd Hcl Hne. unfold sample_visits, walk.
  destruct (random_choice_Ok (keys corpus) (rng 0%nat)) as (start & -> & Hstart).
  { unfold keys. by destruct corpus. }
  cbn [mbind result_bind].
  edestruct (for_each_sim
    (λ done (s : string * gmap string Z) (t : string * list string),
       s.1 = t.1 ∧ s.1 ∈ keys corpus ∧ dom s.2 = list_to_set t.2
       ∧ (∀ k c, s.2 !! k = Some c → (0 < c)%Z)
       ∧ count_sum s.2 = (1 + Z.of_nat (length done))%Z
       ∧ (∀ p, p ∈ t.2 → p ∈ keys corpus)) (range 1 n))
    as ([s1 pr] & [s2 vis] & -> & -> & HR); [| |].
  3:{ cbn [mbind result_bind]. exists pr, vis. simpl in HR.
      destruct HR as (_ & _ & Hdom & Hpos & Hsum & Hvis).
      repeat split; try done. rewrite Hsum. unfold range.
      rewrite length_seq. done. }
  - simpl. split; [done|]. split; [done|]. split.
    { rewrite dom_singleton_L. simpl. by rewrite union_empty_r_L. }
    split. { intros k c [<- <-]%lookup_singleton_Some. lia. }
    split. { by rewrite count_sum_singleton. }
    by intros p ->%list_elem_of_singleton.
  - intros done i rest [s pr] [s' vis] _ (Heq & Hin & Hdom & Hpos & Hsum & Hvis).
    simpl in *. subst s'.
    destruct (next_page_Ok corpus s d (rng i) Hnd Hcl Hin)
      as (pd & next & Htm & Hch & Hnext).
    rewrite Htm. cbn [mbind result_bind]. rewrite Hch. cbn [mbind result_bind].
    rewrite count_visit. cbn [mbind result_bind].
    eexists _, _. split; [done|]. split; [done|]. simpl.
    split; [done|]. split; [done|]. split.
    { rewrite dom_bump, Hdom, list_to_set_app_L. simpl.
      rewrite union_empty_r_L. apply (comm_L (∪)). }
    split. { by apply bump_pos. }
    split. { rewrite count_sum_bump, Hsum, length_app. simpl. lia. }
    intros p [Hp| ->%list_elem_of_singleton]%elem_of_app; auto.
Qed.

Lemma Qc_of_Z_ne_0 n : n ≠ 0%Z → Qc_of_Z n ≠ 0.
Proof. intros Hn Heq. rewrite <-Z2Qc_inj_0 in Heq. by apply Z2Qc_inj in Heq. Qed.

(** Lines 104-105 when [n] is not zero: every count is divided by [n]. *)
Lemma counts_to_ranks (pr_dict : gmap string Z) (n : Z) :
  n ≠ 0%Z →
  for_each (dict_keys pr_dict) (λ key out,
      c ← dict_get pr_dict key;
      q ← truediv (Qc_of_Z c) (Qc_of_Z n);
      Ok (<[key := q]> out)) ∅
  = Ok ((λ c, Qc_of_Z c / Qc_of_Z n) <$> pr_dict).
Proof.
  intros Hn.
  edestruct (for_each_inv
    (λ done (out : gmap string Qc), ∀ k,
       out !! k = if decide (k ∈ done)
                  then (λ c, Qc_of_Z c / Qc_of_Z n) <$> pr_dict !! k
                  else None) (dict_keys pr_dict)) as (out & -> & Hout).
  - intros k. by rewrite decide_False by apply not_elem_of_nil.
  - intros done x rest out Hl Hout.
    assert (x ∈ dict_keys pr_dict) as [c Hc]%elem_of_dict_keys.
    { rewrite Hl. apply elem_of_app. right. by left. }
    unfold dict_get. rewrite Hc. cbn [mbind result_bind].
    rewrite truediv_ok by (by apply Qc_of_Z_ne_0). cbn [mbind result_bind].
    eexists. split; [done|]. intros k.
    destruct (decide (x = k)) as [<-|Hne].
    + rewrite lookup_insert_eq, Hc.
      by rewrite decide_True by (apply elem_of_app; right; by left).
    + rewrite lookup_insert_ne, Hout by done.
      destruct (decide (k ∈ done)) as [Hd|Hd].
      * by rewrite decide_True by (apply elem_of_app; by left).
      * rewrite decide_False; [done|].
        intros [?|?%list_elem_of_singleton]%elem_of_app; congruence.
  - f_equal. apply map_eq. intros k. rewrite Hout, lookup_fmap.
    destruct (decide (k ∈ dict_keys pr_dict)) as [Hk|Hk]; [done|].
    rewrite elem_of_dict_keys, <-eq_None_not_Some in Hk. by rewrite Hk.
Qed.

Lemma dict_sum_counts (pr_dict : gmap string Z) (q : Qc) :
  dict_sum ((λ c, Qc_of_Z c / q) <$> pr_dict)
  = Qc_of_Z (count_sum pr_dict) / q.
Proof.
  unfold dict_sum, count_sum, dict_values. rewrite map_to_list_fmap.
  induction (map_to_list pr_dict) as [|[k c] l IH].
  - simpl. rewrite Z2Qc_inj_0. unfold Qcdiv. ring.
  - rewrite !fmap_cons, Qc_sum_cons, IH. cbn [snd prod_map Z_sum foldr].
    fold (Z_sum l.*2). rewrite Z2Qc_inj_add. unfold Qcdiv. ring.
Qed.

(** Without a main loop ([n < 1]) only the start page is counted. *)
Lemma sample_pagerank_short corpus d n rng :
  corpus ≠ [] → (n < 1)%Z →
  ∃ start, random_choice (keys corpus) (rng 0%nat) = Ok start
    ∧ start ∈ keys corpus
    ∧ sample_pagerank corpus d n rng
      = if decide (n = 0%Z) then Raise ZeroDivisionError
        else Ok {[start := Qc_of_Z 1 / Qc_of_Z n]}.
Proof.
  intros Hne Hn. unfold sample_pagerank, sample_visits.
  destruct (random_choice_Ok (keys corpus) (rng 0%nat)) as (start & Hs & Hin).
  { unfold keys. by destruct corpus. }
  exists start. split; [done|]. split; [done|]. rewrite Hs.
  cbn [mbind result_bind]. unfold range.
  replace (Z.to_nat (n - Z.of_nat 1)) with 0%nat by lia.
  cbn [seq for_each mbind result_bind snd].
  destruct (decide (n = 0%Z)) as [->|Hn0].
  - unfold dict_keys. rewrite map_to_list_singleton.
    cbn [fmap list_fmap fst for_each]. unfold dict_get.
    rewrite lookup_singleton_eq. cbn [mbind result_bind].
    by rewrite Z2Qc_inj_0, truediv_zero.
  - rewrite counts_to_ranks by done. by rewrite map_fmap_singleton.
Qed.

(** On the empty graph there is no start page to choose. *)
Lemma sample_pagerank_empty d n rng : sample_pagerank [] d n rng = Raise IndexError.
Proof. done. Qed.

(** C6.  For a non-empty graph, any damping factor, [n ≥ 1] and any
    outcome of the random draws, [sample_pagerank] returns a map whose
    values sum to exactly 1: the visit counts are positive integers that sum
    to [n], and each is divided by [n]. *)
Theorem sample_pagerank_sums_to_one corpus d n rng :
  is_dict corpus → closed corpus → corpus ≠ [] → (1 ≤ n)%Z →
  ∃ pr_dict ranks,
    sample_visits corpus d n rng = Ok pr_dict
    ∧ (∀ k c, pr_dict !! k = Some c → (0 < c)%Z)
    ∧ count_sum pr_dict = n
    ∧ sample_pagerank corpus d n rng = Ok ranks
    ∧ ranks = (λ c, Qc_of_Z c / Qc_of_Z n) <$> pr_dict
    ∧ dict_sum ranks = 1.
Proof.
  intros Hnd Hcl Hne Hn.
  destruct (sample_visits_walk corpus d n rng Hnd Hcl Hne)
    as (pr & vis & Hpr & _ & _ & Hpos & Hsum & _).
  assert (count_sum pr = n) as Hsum' by lia.
  exists pr, ((λ c, Qc_of_Z c / Qc_of_Z n) <$> pr).
  split; [done|]. split; [done|]. split; [done|]. split.
  { unfold sample_pagerank. rewrite Hpr. cbn [mbind result_bind].
    apply counts_to_ranks. lia. }
  split; [done|]. rewrite dict_sum_counts, Hsum'.
  assert (Qc_of_Z n ≠ 0) by (apply Qc_of_Z_ne_0; lia). by field.
Qed.

Lemma sample_pagerank_sums_to_one_witness :
  ∃ pr_dict ranks,
    sample_visits chain half 5 (λ i, i) = Ok pr_dict
    ∧ (∀ k c, pr_dict !! k = Some c → (0 < c)%Z)
    ∧ count_sum pr_dict = 5%Z
    ∧ sample_pagerank chain half 5 (λ i, i) = Ok ranks
    ∧ ranks = (λ c, Qc_of_Z c / Qc_of_Z 5) <$> pr_dict
    ∧ dict_sum ranks = 1.
Proof.
  apply (sample_pagerank_sums_to_one chain half 5 (λ i, i));
    [apply chain_dict|apply chain_closed|done|lia].
Defined.

(** C8.  For a non-empty graph, any damping factor, [n ≥ 1] and any
    outcome of the random draws, the keys of the map [sample_pagerank]
    returns are exactly the pages the walk visited: a page never visited is
    absent, no key is present with value 0, and every key is a page of the
    graph. *)
Theorem sample_pagerank_keys_visited corpus d n rng :
  is_dict corpus → closed corpus → corpus ≠ [] → (1 ≤ n)%Z →
  ∃ visited ranks,
    walk corpus d n rng = Ok visited
    ∧ sample_pagerank corpus d n rng = Ok ranks
    ∧ dom ranks = list_to_set visited
    ∧ (∀ p, p ∉ visited → ranks !! p = None)
    ∧ (∀ p v, ranks !! p = Some v → 0 < v)
    ∧ dom ranks ⊆ pages corpus.
Proof.
  intros Hnd Hcl Hne Hn.
  destruct (sample_visits_walk corpus d n rng Hnd Hcl Hne)
    as (pr & vis & Hpr & Hwalk & Hdom & Hpos & _ & Hvis).
  exists vis, ((λ c, Qc_of_Z c / Qc_of_Z n) <$> pr).
  split; [done|]. split.
  { unfold sample_pagerank. rewrite Hpr. cbn [mbind result_bind].
    apply counts_to_ranks. lia. }
  split; [by rewrite dom_fmap_L|]. split.
  { intros p Hp. apply not_elem_of_dom. rewrite dom_fmap_L, Hdom.
    by rewrite elem_of_list_to_set. }
  split.
  { intros p v. rewrite lookup_fmap.
    destruct (pr !! p) as [c|] eqn:Hc; [|done]. intros [= <-].
    unfold Qcdiv. apply Qcmult_pos_pos.
    - rewrite <-Z2Qc_inj_0. apply (proj1 (Z2Qc_inj_lt 0 c)). eauto.
    - apply Qcinv_pos. rewrite <-Z2Qc_inj_0.
      apply (proj1 (Z2Qc_inj_lt 0 n)). lia. }
  rewrite dom_fmap_L, Hdom. intros p Hp%elem_of_list_to_set.
  apply elem_of_list_to_set. auto.
Qed.

Lemma sample_pagerank_keys_visited_witness :
  ∃ visited ranks,
    walk chain half 5 (λ i, i) = Ok visited
    ∧ sample_pagerank chain half 5 (λ i, i) = Ok ranks
    ∧ dom ranks = list_to_set visited
    ∧ (∀ p, p ∉ visited → ranks !! p = None)
    ∧ (∀ p v, ranks !! p = Some v → 0 < v)
    ∧ dom ranks ⊆ pages chain.
Proof.
  apply (sample_pagerank_keys_visited chain half 5 (λ i, i));
    [apply chain_dict|apply chain_closed|done|lia].
Defined.

(** C3, as stated, fails for a negative sample count: on the one-page
    graph with [n = -1] the sampler returns the map [{A: -1}]. *)
Lemma sample_pagerank_negative_returns :
  single_page ≠ [] ∧ (-1 < 1)%Z
  ∧ sample_pagerank single_page half (-1) (λ _, 0%nat)
    = Ok {["A"%string := Qc_of_Z 1 / Qc_of_Z (-1)]}
  ∧ Qc_of_Z 1 / Qc_of_Z (-1) = - 1.
Proof.
  split; [done|]. split; [done|]. split; [|by apply Qc_is_canon].
  destruct (sample_pagerank_short single_page half (-1) (λ _, 0%nat))
    as (start & Hs & _ & Hr); [done|done|].
  injection Hs as <-. by rewrite Hr.
Qed.

(** C3, amended.  For a non-empty graph and [n < 1] the sampler runs no
    main loop: with [n = 0] it raises (division by zero); with [n < 0] it
    returns the one-entry map that gives the start page the value [1/n]. *)
Theorem sample_pagerank_nonpositive corpus d n rng :
  corpus ≠ [] → (n < 1)%Z →
  ∃ start, random_choice (keys corpus) (rng 0%nat) = Ok start
    ∧ (n = 0%Z → sample_pagerank corpus d n rng = Raise ZeroDivisionError)
    ∧ ((n < 0)%Z → sample_pagerank corpus d n rng
                   = Ok {[start := Qc_of_Z 1 / Qc_of_Z n]}).
Proof.
  intros Hne Hn.
  destruct (sample_pagerank_short corpus d n rng Hne Hn) as (start & Hs & _ & Hr).
  exists start. split; [done|]. rewrite Hr. split.
  - intros ->. by rewrite decide_True.
  - intros Hlt. rewrite decide_False; [done|lia].
Qed.

Lemma sample_pagerank_nonpositive_witness :
  ∃ start, random_choice (keys chain) 0%nat = Ok start
    ∧ (0%Z = 0%Z → sample_pagerank chain half 0 (λ _, 0%nat)
                   = Raise ZeroDivisionError)
    ∧ ((0 < 0)%Z → sample_pagerank chain half 0 (λ _, 0%nat)
                   = Ok {[start := Qc_of_Z 1 / Qc_of_Z 0]}).
Proof.
  apply (sample_pagerank_nonpositive chain half 0 (λ _, 0%nat)); [done|lia].
Defined.

(** * The iterative estimator *)

Lemma for_each_ext {A S : Type} (l : list A) (b1 b2 : A → S → result S) s :
  (∀ x s, x ∈ l → b1 x s = b2 x s) → for_each l b1 s = for_each l b2 s.
Proof.
  revert s. induction l as [|x l IH]; intros s Hext; simpl; [done|].
  rewrite Hext by (by left). destruct (b2 x s); simpl; [|done].
  apply IH. intros y s' Hy. apply Hext. by right.
Qed.

Lemma first_distribution_fill corpus :
  first_distribution corpus
  = Ok (dict_fill (keys corpus) (1 / Qc_of_nat (length (keys corpus))) ∅).
Proof.
  unfold first_distribution. destruct corpus as [|[k l] corpus]; [done|].
  rewrite truediv_ok by (by apply Qc_of_nat_ne_0). cbn [mbind result_bind].
  apply (for_each_pure _ (λ pd key, <[key:=_]> pd)).
Qed.

(** The body of the inbound loop, at a page of the corpus. *)
Lemma inbound_body corpus (ranks : gmap string Qc) key page links (sum : Qc) :
  corpus_get corpus page = Ok links →
  (links0 ← corpus_get corpus page;
   if decide (key ∈ links0) then
     r ← dict_get ranks page;
     q ← truediv r (Qc_of_nat (size links0));
     Ok (sum + q)
   else Ok sum)
  = if decide (key ∈ links) then
      match ranks !! page with
      | Some r => Ok (sum + r / Qc_of_nat (size links))
      | None => Raise KeyError
      end
    else Ok sum.
Proof.
  intros ->. cbn [mbind result_bind].
  destruct (decide (key ∈ links)) as [Hin|Hin]; [|done].
  unfold dict_get. destruct (ranks !! page) as [r|]; [|done].
  cbn [mbind result_bind]. by rewrite truediv_ok by (by eapply size_links_ne_0).
Qed.

Lemma inbound_no_zero_division corpus (ranks : gmap string Qc) key :
  inbound corpus ranks key ≠ Raise ZeroDivisionError.
Proof.
  intros (page & sum & Hpage & Hraise)%for_each_raise.
  destruct (corpus_get_key _ _ Hpage) as [links Hget].
  rewrite (inbound_body _ _ _ _ _ _ Hget) in Hraise.
  destruct (decide (key ∈ links)); [|done]. by destruct (ranks !! page).
Qed.

(** When every page has a rank, the loop computes [inbound_sum]. *)
Lemma inbound_Ok corpus (ranks : gmap string Qc) key :
  is_dict corpus → (∀ q, q ∈ keys corpus → is_Some (ranks !! q)) →
  inbound corpus ranks key = Ok (inbound_sum corpus ranks key).
Proof.
  intros Hnd Hranks. unfold inbound.
  cut (∀ rest sum, (∀ x, x ∈ rest → x ∈ corpus) →
         for_each (keys rest) (λ page sum,
             links ← corpus_get corpus page;
             if decide (key ∈ links) then
               r ← dict_get ranks page;
               q ← truediv r (Qc_of_nat (size links));
               Ok (sum + q)
             else Ok sum) sum
         = Ok (sum + inbound_sum rest ranks key)).
  { intros Hcut. rewrite Hcut by done. f_equal. ring. }
  induction rest as [|[q links] rest IH]; intros sum Hsub.
  - simpl. f_equal. ring.
  - cbn [keys fmap list_fmap fst for_each inbound_sum].
    assert ((q, links) ∈ corpus) as Hq by (apply Hsub; by left).
    rewrite (inbound_body _ _ _ _ links) by by apply corpus_get_elem.
    destruct (Hranks q) as [r Hr].
    { unfold keys. apply list_elem_of_fmap. by exists (q, links). }
    rewrite Hr. fold (keys rest).
    destruct (decide (key ∈ links)); cbn [mbind result_bind default].
    + rewrite IH by (intros x Hx; apply Hsub; by right).
      apply (f_equal Ok). unfold id, Qcdiv. ring.
    + rewrite IH by (intros x Hx; apply Hsub; by right).
      apply (f_equal Ok). ring.
Qed.

Lemma inbound_sum_nonneg corpus (rank : gmap string Qc) p :
  (∀ q v, rank !! q = Some v → 0 ≤ v) → 0 ≤ inbound_sum corpus rank p.
Proof.
  intros Hpos. induction corpus as [|[q links] corpus IH]; simpl; [done|].
  apply Qcplus_nonneg_nonneg; [|done].
  destruct (decide (p ∈ links)) as [Hp|]; [|done].
  unfold Qcdiv. apply Qcmult_nonneg_nonneg.
  - destruct (rank !! q) as [v|] eqn:Hv; simpl; [eauto|done].
  - apply Qclt_le_weak, Qcinv_pos, Qc_of_nat_pos.
    destruct (size links) eqn:Hsz; [|lia].
    apply size_empty_inv, leibniz_equiv in Hsz. subst links.
    by apply not_elem_of_empty in Hp.
Qed.

(** The loop body of the sweep in closed form: the new rank of [key] is
    computed on the dictionary as it is at that moment and stored in it. *)
Lemma sweep_step_Ok corpus d key (ranks : gmap string Qc) count old :
  is_dict corpus → (∀ q, q ∈ keys corpus → is_Some (ranks !! q)) →
  key ∈ keys corpus → ranks !! key = Some old →
  sweep_step corpus d key (ranks, count)
  = Ok (<[key := new_rank corpus d ranks key]> ranks,
        if decide (Qcabs (old - new_rank corpus d ranks key) < tolerance)
        then S count else count).
Proof.
  intros Hnd Hranks Hkey Hold. unfold sweep_step.
  rewrite inbound_Ok by done. cbn [mbind result_bind].
  rewrite truediv_ok by (by eapply keys_length_pos). cbn [mbind result_bind].
  unfold dict_get. rewrite Hold. done.
Qed.

Lemma sweep_no_zero_division corpus d (ranks : gmap string Qc) :
  sweep corpus d ranks ≠ Raise ZeroDivisionError.
Proof.
  intros (key & [cur count] & Hkey & Hraise)%for_each_raise.
  unfold sweep_step in Hraise.
  destruct (inbound corpus cur key) as [sum|e] eqn:Hin; cbn [mbind result_bind] in Hraise.
  - rewrite truediv_ok in Hraise by (by eapply keys_length_pos).
    cbn [mbind result_bind] in Hraise. unfold dict_get in Hraise.
    by destruct (cur !! key).
  - injection Hraise as ->. by apply inbound_no_zero_division in Hin.
Qed.

(** The rank of a dangling page is never read by the inbound loop. *)
Lemma inbound_dangling corpus (ranks : gmap string Qc) key q (x : option Qc) :
  corpus_get corpus q = Ok ∅ →
  inbound corpus (partial_alter (λ _, x) q ranks) key = inbound corpus ranks key.
Proof.
  intros Hq. unfold inbound. apply for_each_ext. intros page sum Hpage.
  destruct (corpus_get_key _ _ Hpage) as [links Hget].
  rewrite !(inbound_body _ _ _ _ _ _ Hget).
  destruct (decide (key ∈ links)) as [Hin|]; [|done].
  rewrite lookup_partial_alter_ne; [done|].
  intros <-. rewrite Hq in Hget. injection Hget as <-.
  by apply not_elem_of_empty in Hin.
Qed.

(** C10.  In the sweep the division [rank(q) / |outlinks(q)|] is performed
    only for pages [q] whose link set contains the page being updated, so
    the divisor is at least 1: for every graph, rank map and page neither
    the inbound loop nor the whole sweep raises a division by zero, and a
    dangling page contributes no term, its rank is not even read. *)
Theorem sweep_division_safe corpus d (ranks : gmap string Qc) key :
  inbound corpus ranks key ≠ Raise ZeroDivisionError
  ∧ sweep corpus d ranks ≠ Raise ZeroDivisionError
  ∧ (∀ q links, corpus_get corpus q = Ok links → key ∈ links →
       (1 ≤ size links)%nat ∧ Qc_of_nat (size links) ≠ 0)
  ∧ (∀ q x, corpus_get corpus q = Ok ∅ →
       inbound corpus (partial_alter (λ _, x) q ranks) key
       = inbound corpus ranks key).
Proof.
  split; [apply inbound_no_zero_division|].
  split; [apply sweep_no_zero_division|]. split.
  - intros q links _ Hin. pose proof (size_links_ne_0 _ _ Hin) as Hne.
    split; [|done]. destruct (size links); [|lia]. by rewrite Qc_of_nat_0 in Hne.
  - intros q x Hq. by apply inbound_dangling.
Qed.

Lemma sweep_division_safe_witness :
  inbound chain (partial_alter (λ _, Some half) "C" ∅) "A" = inbound chain ∅ "A".
Proof.
  apply (proj2 (proj2 (proj2 (sweep_division_safe chain half ∅ "A"))) "C").
  reflexivity.
Defined.

Lemma pages_lookup corpus (ranks : gmap string Qc) :
  dom ranks = pages corpus → ∀ q, q ∈ keys corpus → is_Some (ranks !! q).
Proof.
  intros Hdom q Hq. apply elem_of_dom. rewrite Hdom.
  by apply elem_of_list_to_set.
Qed.

Lemma pages_key corpus (ranks : gmap string Qc) q v :
  dom ranks = pages corpus → ranks !! q = Some v → q ∈ keys corpus.
Proof.
  intros Hdom Hq. apply (elem_of_list_to_set (C:=gset string)).
  fold (pages corpus). rewrite <-Hdom. by apply elem_of_dom.
Qed.

Lemma sweep_in_place_inv corpus d (ranks : gmap string Qc) :
  is_dict corpus → dom ranks = pages corpus →
  ∃ st, sweep corpus d ranks = Ok st ∧ sweep_inv corpus d ranks (keys corpus) st.
Proof.
  intros Hnd Hdom. unfold sweep.
  apply (for_each_inv (sweep_inv corpus d ranks)).
  - split; [done|]. split; [done|]. intros i p Hi. by rewrite lookup_nil in Hi.
  - intros done x rest [cur count] Hl (Hd & Hrest & Hdone).
    cbn [fst] in Hd, Hrest, Hdone.
    assert (x ∈ keys corpus) as Hx by (rewrite Hl; apply elem_of_app; right; by left).
    assert (x ∉ done) as Hxd.
    { unfold is_dict in Hnd. rewrite Hl in Hnd.
      apply NoDup_app in Hnd as (_ & Hdisj & _). intros Hin.
      apply (Hdisj x Hin). by left. }
    destruct (pages_lookup corpus cur Hd x Hx) as [old Hold].
    rewrite (sweep_step_Ok corpus d x cur count old)
      by eauto using pages_lookup.
    eexists. split; [done|]. split; [|split]; cbn [fst].
    + rewrite dom_insert_L, Hd. apply subseteq_union_1_L.
      intros y ->%elem_of_singleton. by apply elem_of_list_to_set.
    + intros q Hq. rewrite lookup_insert_ne; [apply Hrest|].
      * intros Hin. apply Hq, elem_of_app. by left.
      * intros ->. apply Hq, elem_of_app. right. by left.
    + intros i p Hi. destruct (decide (i < length done)%nat) as [Hlt|Hge].
      * rewrite lookup_app_l in Hi by done.
        destruct (Hdone i p Hi) as (mid & Hmid & Hp).
        assert (p ≠ x) as Hpx.
        { intros ->. apply Hxd. by eapply list_elem_of_lookup_2. }
        exists mid. rewrite take_app_le by lia. split.
        -- intros q. rewrite Hmid. destruct (decide (q ∈ take i done)) as [Hq|]; [|done].
           rewrite lookup_insert_ne; [done|]. intros <-.
           apply Hxd. by eapply subseteq_take.
        -- by rewrite lookup_insert_ne.
      * rewrite lookup_app_r in Hi by lia.
        destruct (i - length done)%nat eqn:Hi0; [|by destruct n].
        injection Hi as <-. assert (i = length done) as -> by lia.
        exists cur. rewrite take_app_length. split; [|apply lookup_insert_eq].
        intros q. destruct (decide (q ∈ done)) as [Hq|Hq].
        -- rewrite lookup_insert_ne; [done|]. by intros <-.
        -- by apply Hrest.
Qed.

(** Equality of a looked-up rational is decided on its numerator and
    denominator. *)
Lemma lookup_Qc_eq (m : gmap string Qc) k (q : Qc) :
  this <$> m !! k = Some (this q) → m !! k = Some q.
Proof.
  destruct (m !! k) as [x|]; simpl; [|done]. intros [= Hx].
  f_equal. apply Qc_is_canon. by rewrite Hx.
Qed.

(** C1, as stated, fails: on the chain [A → B → C] with damping 1/2 the
    first sweep gives [B] the rank 1/4, computed from the rank 1/6 that [A]
    received earlier in the same sweep, where the simultaneous update gives
    1/3. *)
Lemma sweep_not_simultaneous :
  chain ≠ [] ∧ 0 ≤ half < 1
  ∧ ∃ r0 r1 count,
      first_distribution chain = Ok r0
      ∧ sweep chain half r0 = Ok (r1, count)
      ∧ r1 !! "A"%string = Some (Q2Qc (1 # 6))
      ∧ r1 !! "B"%string = Some (Q2Qc (1 # 4))
      ∧ reference_update chain half r0 !! "B"%string = Some (Q2Qc (1 # 3))
      ∧ r1 ≠ reference_update chain half r0.
Proof.
  split; [done|]. split; [done|].
  pose (r0 := dict_fill (keys chain) (1 / Qc_of_nat (length (keys chain)))
                (∅ : gmap string Qc)).
  destruct (sweep_in_place_inv chain half r0 chain_dict)
    as ([r1 count] & Hsweep & _).
  { unfold r0, pages. by rewrite dom_dict_fill, dom_empty_L, union_empty_r_L. }
  exists r0, r1, count. split; [apply first_distribution_fill|].
  split; [done|].
  assert (swept_rank (sweep chain half r0) "A" = Some (1 # 6)%Q) as HA
    by (by vm_compute).
  assert (swept_rank (sweep chain half r0) "B" = Some (1 # 4)%Q) as HB
    by (by vm_compute).
  rewrite Hsweep in HA, HB. cbn [swept_rank] in HA, HB.
  assert (reference_update chain half r0 !! "B"%string = Some (Q2Qc (1 # 3)))
    as HB' by (apply lookup_Qc_eq; by vm_compute).
  split; [by apply lookup_Qc_eq|]. split; [by apply lookup_Qc_eq|].
  split; [done|].
  intros ->. rewrite HB' in HB. by vm_compute in HB.
Qed.

(** C1, amended.  A sweep updates the dictionary in place, page after page
    in the key order of the graph: the new rank of a page is the reference
    formula [new_rank] evaluated on the dictionary as it stands when the page
    is reached, in which the pages before it in the order already hold this
    sweep's new ranks and all other pages still hold the previous ones.  Only
    for the first page this is the previous sweep's rank map. *)
Theorem sweep_in_place corpus d (ranks : gmap string Qc) :
  is_dict corpus → dom ranks = pages corpus →
  ∃ ranks' count,
    sweep corpus d ranks = Ok (ranks', count)
    ∧ dom ranks' = pages corpus
    ∧ (∀ i p, keys corpus !! i = Some p →
         ∃ mid : gmap string Qc,
           (∀ q, mid !! q = if decide (q ∈ take i (keys corpus))
                            then ranks' !! q else ranks !! q)
           ∧ ranks' !! p = Some (new_rank corpus d mid p))
    ∧ (∀ p, keys corpus !! 0%nat = Some p →
         ranks' !! p = Some (new_rank corpus d ranks p)).
Proof.
  intros Hnd Hdom.
  destruct (sweep_in_place_inv corpus d ranks Hnd Hdom)
    as ([ranks' count] & Hsweep & Hd & _ & Hin).
  exists ranks', count. split; [done|]. split; [done|]. split; [done|].
  intros p Hp. destruct (Hin 0%nat p Hp) as (mid & Hmid & Hr).
  assert (mid = ranks) as <-; [|done].
  apply map_eq. intros q. rewrite Hmid. cbn [take].
  by rewrite decide_False by apply not_elem_of_nil.
Qed.

Lemma sweep_in_place_witness :
  ∃ ranks' count,
    sweep chain half (dict_fill (keys chain) (Q2Qc (1 # 3)) ∅)
    = Ok (ranks', count)
    ∧ dom ranks' = pages chain
    ∧ (∀ i p, keys chain !! i = Some p →
         ∃ mid : gmap string Qc,
           (∀ q, mid !! q
                 = if decide (q ∈ take i (keys chain))
                   then ranks' !! q
                   else dict_fill (keys chain) (Q2Qc (1 # 3)) ∅ !! q)
           ∧ ranks' !! p = Some (new_rank chain half mid p))
    ∧ (∀ p, keys chain !! 0%nat = Some p →
         ranks' !! p
         = Some (new_rank chain half
                   (dict_fill (keys chain) (Q2Qc (1 # 3)) ∅) p)).
Proof.
  apply (sweep_in_place chain half (dict_fill (keys chain) (Q2Qc (1 # 3)) ∅));
    [apply chain_dict|].
  unfold pages. by rewrite dom_dict_fill, dom_empty_L, union_empty_r_L.
Defined.

(** Lines 141-143 compute the sum of the values. *)
Lemma dict_total_sum (iterate_dict : gmap string Qc) :
  dict_total iterate_dict = Ok (dict_sum iterate_dict).
Proof.
  unfold dict_total, dict_sum, dict_keys, dict_values.
  cut (∀ (l : list (string * Qc)) acc,
         (∀ k v, (k, v) ∈ l → iterate_dict !! k = Some v) →
         for_each l.*1 (λ key total,
             v ← dict_get iterate_dict key; Ok (total + v)) acc
         = Ok (acc + Qc_sum l.*2)).
  { intros Hcut. rewrite Hcut.
    - f_equal. ring.
    - intros k v. apply elem_of_map_to_list. }
  induction l as [|[k v] l IH]; intros acc Hl.
  - simpl. f_equal. ring.
  - assert (dict_get iterate_dict k = Ok v) as Hg.
    { unfold dict_get. by rewrite (Hl k v) by (by left). }
    rewrite !fmap_cons. cbn [for_each fst snd]. rewrite Hg.
    cbn [mbind result_bind].
    rewrite IH by (intros k' v' Hin; apply Hl; by right).
    rewrite Qc_sum_cons. f_equal. ring.
Qed.

(** Lines 144-145 when the total is not zero: every rank is divided by it. *)
Lemma normalization_Ok (iterate_dict : gmap string Qc) :
  dict_sum iterate_dict ≠ 0 →
  normalization iterate_dict
  = Ok ((λ v, v / dict_sum iterate_dict) <$> iterate_dict).
Proof.
  intros Htotal. unfold normalization. rewrite dict_total_sum.
  cbn [mbind result_bind].
  edestruct (for_each_inv
    (λ done (cur : gmap string Qc), ∀ k,
       cur !! k = if decide (k ∈ done)
                  then (λ v, v / dict_sum iterate_dict) <$> iterate_dict !! k
                  else iterate_dict !! k) (dict_keys iterate_dict))
    as (out & -> & Hout).
  - intros k. by rewrite decide_False by apply not_elem_of_nil.
  - intros done x rest cur Hl Hcur.
    assert (x ∈ dict_keys iterate_dict) as [v Hv]%elem_of_dict_keys.
    { rewrite Hl. apply elem_of_app. right. by left. }
    assert (x ∉ done) as Hxd.
    { pose proof (NoDup_fst_map_to_list iterate_dict) as Hnd.
      fold (dict_keys iterate_dict) in Hnd. rewrite Hl in Hnd.
      apply NoDup_app in Hnd as (_ & Hdisj & _). intros Hin.
      apply (Hdisj x Hin). by left. }
    unfold dict_get. rewrite Hcur, decide_False, Hv by done.
    cbn [mbind result_bind]. rewrite truediv_ok by done.
    cbn [mbind result_bind]. eexists. split; [done|]. intros k.
    destruct (decide (x = k)) as [<-|Hne].
    + rewrite lookup_insert_eq, Hv.
      by rewrite decide_True by (apply elem_of_app; right; by left).
    + rewrite lookup_insert_ne, Hcur by done.
      destruct (decide (k ∈ done)) as [Hd|Hd].
      * by rewrite decide_True by (apply elem_of_app; by left).
      * rewrite decide_False; [done|].
        intros [?|?%list_elem_of_singleton]%elem_of_app; congruence.
  - f_equal. apply map_eq. intros k. rewrite Hout, lookup_fmap.
    destruct (decide (k ∈ dict_keys iterate_dict)) as [Hk|Hk]; [done|].
    rewrite elem_of_dict_keys, <-eq_None_not_Some in Hk. by rewrite Hk.
Qed.

Lemma normalization_empty : normalization ∅ = Ok ∅.
Proof.
  unfold normalization, dict_total, dict_keys. by rewrite map_to_list_empty.
Qed.

(** C2, as stated, fails for the iterative estimator: on the empty graph it
    returns the empty map after a single pass of the loop. *)
Lemma iterate_pagerank_empty_returns :
  iterate_pagerank 1 [] half = Some (Ok ∅).
Proof.
  unfold iterate_pagerank. cbn [first_distribution keys fmap list_fmap for_each].
  cbn [iterate_loop sweep keys fmap list_fmap for_each length].
  rewrite decide_True by done. by rewrite normalization_empty.
Qed.

(** C2, amended.  On the empty graph [sample_pagerank] fails at its first
    statement (there is no start page to choose), whereas
    [iterate_pagerank] fails nowhere: its loop stops after one pass and it
    returns the empty map. *)
Theorem empty_graph_estimators d n rng fuel :
  sample_pagerank [] d n rng = Raise IndexError
  ∧ iterate_pagerank (S fuel) [] d = Some (Ok ∅).
Proof.
  split; [done|].
  unfold iterate_pagerank. cbn [first_distribution keys fmap list_fmap for_each].
  cbn [iterate_loop sweep keys fmap list_fmap for_each length].
  rewrite decide_True by done. by rewrite normalization_empty.
Qed.

Lemma base_rank_pos corpus d : corpus ≠ [] → d < 1 → 0 < base_rank corpus d.
Proof.
  intros Hne Hd. unfold base_rank, Qcdiv. apply Qcmult_pos_pos.
  - apply (proj2 (Qcplus_lt_mono_r 0 (1 - d) d)).
    by replace (1 - d + d) with 1 by ring; rewrite Qcplus_0_l.
  - apply Qcinv_pos, Qc_of_nat_pos. unfold keys. destruct corpus; [done|simpl; lia].
Qed.

Lemma new_rank_ge_base corpus d (rank : gmap string Qc) p :
  0 ≤ d → (∀ q v, rank !! q = Some v → 0 ≤ v) →
  base_rank corpus d ≤ new_rank corpus d rank p.
Proof.
  intros Hd Hpos. unfold new_rank. fold (base_rank corpus d).
  rewrite <-(Qcplus_0_r (base_rank corpus d)) at 1.
  apply Qcplus_le_mono_l, Qcmult_nonneg_nonneg; [done|].
  by apply inbound_sum_nonneg.
Qed.

(** After a sweep over non-negative ranks every rank is at least the
    teleport share. *)
Lemma sweep_bounds corpus d (ranks : gmap string Qc) :
  is_dict corpus → corpus ≠ [] → 0 ≤ d → d < 1 → dom ranks = pages corpus →
  (∀ q v, ranks !! q = Some v → 0 ≤ v) →
  ∃ ranks' count, sweep corpus d ranks = Ok (ranks', count)
    ∧ dom ranks' = pages corpus
    ∧ ∀ q v, ranks' !! q = Some v → base_rank corpus d ≤ v.
Proof.
  intros Hnd Hne Hd0 Hd1 Hdom Hpos.
  destruct (sweep_in_place_inv corpus d ranks Hnd Hdom)
    as ([ranks' count] & Hsweep & Hd & _).
  cbn [fst] in Hd. exists ranks', count. split; [done|]. split; [done|].
  pose proof (Qclt_le_weak _ _ (base_rank_pos corpus d Hne Hd1)) as Hbase.
  cut (dom ranks' = pages corpus
       ∧ (∀ q v, ranks' !! q = Some v → 0 ≤ v)
       ∧ ∀ q v, q ∈ keys corpus → ranks' !! q = Some v → base_rank corpus d ≤ v).
  { intros (_ & _ & Hall) q v Hq. apply (Hall q v); [|done].
    by eapply pages_key. }
  revert Hsweep. unfold sweep.
  apply (for_each_inv_partial
    (λ done (st : gmap string Qc * nat),
       dom st.1 = pages corpus
       ∧ (∀ q v, st.1 !! q = Some v → 0 ≤ v)
       ∧ ∀ q v, q ∈ done → st.1 !! q = Some v → base_rank corpus d ≤ v)
    (keys corpus) (sweep_step corpus d) (ranks, 0%nat) (ranks', count)).
  - split; [done|]. split; [done|]. by intros q v ?%elem_of_nil.
  - intros done x rest [cur c] st' Hl (Hcd & Hcpos & Hcdone). cbn [fst] in *.
    assert (x ∈ keys corpus) as Hx by (rewrite Hl; apply elem_of_app; right; by left).
    destruct (pages_lookup corpus cur Hcd x Hx) as [old Hold].
    rewrite (sweep_step_Ok corpus d x cur c old) by eauto using pages_lookup.
    intros [= <-]. cbn [fst].
    pose proof (new_rank_ge_base corpus d cur x Hd0 Hcpos) as Hnew.
    split; [|split].
    + rewrite dom_insert_L, Hcd. apply subseteq_union_1_L.
      intros y ->%elem_of_singleton. by apply elem_of_list_to_set.
    + intros q v. destruct (decide (x = q)) as [<-|Hxq].
      * rewrite lookup_insert_eq. intros [= <-]. by trans (base_rank corpus d).
      * rewrite lookup_insert_ne by done. apply Hcpos.
    + intros q v Hq. destruct (decide (x = q)) as [<-|Hxq].
      * rewrite lookup_insert_eq. by intros [= <-].
      * rewrite lookup_insert_ne by done. apply Hcdone.
        apply elem_of_app in Hq as [?|?%list_elem_of_singleton]; congruence.
Qed.

Lemma iterate_loop_bounds fuel corpus d (ranks : gmap string Qc) res :
  is_dict corpus → corpus ≠ [] → 0 ≤ d → d < 1 → dom ranks = pages corpus →
  (∀ q v, ranks !! q = Some v → 0 ≤ v) →
  iterate_loop fuel corpus d ranks = Some res →
  ∃ final, res = Ok final ∧ dom final = pages corpus
    ∧ ∀ q v, final !! q = Some v → base_rank corpus d ≤ v.
Proof.
  intros Hnd Hne Hd0 Hd1. revert ranks.
  induction fuel as [|fuel IH]; intros ranks Hdom Hpos; simpl; [done|].
  destruct (sweep_bounds corpus d ranks Hnd Hne Hd0 Hd1 Hdom Hpos)
    as (ranks' & count & -> & Hdom' & Hge).
  destruct (decide (count = length (keys corpus))).
  - intros [= <-]. by exists ranks'.
  - apply IH; [done|]. intros q v Hq. trans (base_rank corpus d); [|eauto].
    by apply Qclt_le_weak, base_rank_pos.
Qed.

(** C7.  For a non-empty graph and a damping factor in (0,1), whenever the
    loop of [iterate_pagerank] terminates, the function returns a map whose
    values sum to exactly 1: every final rank is at least [(1-d)/|pages|],
    so their total is strictly positive, and each is divided by it. *)
Theorem iterate_pagerank_sums_to_one fuel corpus d res :
  is_dict corpus → corpus ≠ [] → 0 < d < 1 →
  iterate_pagerank fuel corpus d = Some res →
  ∃ r0 final ranks,
    first_distribution corpus = Ok r0
    ∧ iterate_loop fuel corpus d r0 = Some (Ok final)
    ∧ (∀ q v, final !! q = Some v →
         (1 - d) / Qc_of_nat (length (keys corpus)) ≤ v)
    ∧ 0 < dict_sum final
    ∧ res = Ok ranks
    ∧ ranks = (λ v, v / dict_sum final) <$> final
    ∧ dom ranks = pages corpus
    ∧ dict_sum ranks = 1.
Proof.
  intros Hnd Hne [Hd0 Hd1] Hres. unfold iterate_pagerank in Hres.
  rewrite first_distribution_fill in Hres.
  set (r0 := dict_fill (keys corpus) (1 / Qc_of_nat (length (keys corpus))) ∅)
    in *.
  destruct (iterate_loop fuel corpus d r0) as [res0|] eqn:Hloop; [|done].
  destruct (iterate_loop_bounds fuel corpus d r0 res0 Hnd Hne) as
    (final & -> & Hdom & Hge); [by apply Qclt_le_weak|done|..|done|].
  { unfold r0, pages. by rewrite dom_dict_fill, dom_empty_L, union_empty_r_L. }
  { intros q v. unfold r0. rewrite lookup_dict_fill, lookup_empty.
    destruct (decide (q ∈ keys corpus)); [|done]. intros [= <-].
    unfold Qcdiv. rewrite Qcmult_1_l.
    apply Qclt_le_weak, Qcinv_pos, Qc_of_nat_pos.
    unfold keys. destruct corpus; [done|simpl; lia]. }
  pose proof (base_rank_pos corpus d Hne Hd1) as Hbase.
  assert (0 < dict_sum final) as Htotal.
  { apply dict_sum_pos.
    - intros ->. rewrite dom_empty_L in Hdom. unfold pages, keys in Hdom.
      destruct corpus as [|[k l] corpus]; [done|].
      simpl in Hdom. assert (k ∈ (∅ : gset string)) as Hk by (rewrite Hdom; set_solver).
      by apply not_elem_of_empty in Hk.
    - intros k v Hk. by eapply Qclt_le_trans, Hge. }
  assert (dict_sum final ≠ 0) as Hne0.
  { intros Heq. rewrite Heq in Htotal. by apply (irreflexivity Qclt 0). }
  rewrite normalization_Ok in Hres by done. injection Hres as <-.
  exists r0, final, ((λ v, v / dict_sum final) <$> final).
  split; [apply first_distribution_fill|]. split; [done|].
  split; [apply Hge|]. split; [done|]. split; [done|]. split; [done|].
  split; [by rewrite dom_fmap_L|].
  rewrite dict_sum_scale. by field.
Qed.

Lemma iterate_pagerank_sums_to_one_witness :
  ∃ res, iterate_pagerank 3 chain half = Some res
  ∧ ∃ r0 final ranks,
      first_distribution chain = Ok r0
      ∧ iterate_loop 3 chain half r0 = Some (Ok final)
      ∧ (∀ q v, final !! q = Some v →
           (1 - half) / Qc_of_nat (length (keys chain)) ≤ v)
      ∧ 0 < dict_sum final
      ∧ res = Ok ranks
      ∧ ranks = (λ v, v / dict_sum final) <$> final
      ∧ dom ranks = pages chain
      ∧ dict_sum ranks = 1.
Proof.
  destruct (iterate_pagerank 3 chain half) as [res|] eqn:Hres;
    [|by vm_compute in Hres].
  exists res. split; [done|].
  apply (iterate_pagerank_sums_to_one 3 chain half res);
    [apply chain_dict|done|apply half_range|done].
Defined.

(** The sweep leaves the uniform ranks of the two-cycle unchanged. *)
Lemma new_rank_two_cycle d (rank : gmap string Qc) p :
  p = "A"%string ∨ p = "B"%string →
  rank !! "A"%string = Some half → rank !! "B"%string = Some half →
  new_rank two_cycle d rank p = half.
Proof.
  intros Hp HA HB. unfold new_rank. cbn [two_cycle inbound_sum].
  rewrite HA, HB, !size_singleton. cbn [default].
  assert (Qc_of_nat (length (keys two_cycle)) = 2) as -> by (by apply Qc_is_canon).
  assert (Qc_of_nat 1 = 1) as -> by (by apply Qc_is_canon).
  assert (half = 1 / 2) as -> by (by apply Qc_is_canon).
  assert ((2 : Qc) ≠ 0) as H2 by done.
  destruct Hp as [-> | ->].
  - rewrite decide_False by (by intros ?%elem_of_singleton).
    rewrite decide_True by (by apply elem_of_singleton). unfold id. by field.
  - rewrite decide_True by (by apply elem_of_singleton).
    rewrite decide_False by (by intros ?%elem_of_singleton). unfold id. by field.
Qed.

Lemma two_cycle_sweep d (rank : gmap string Qc) :
  dom rank = pages two_cycle →
  rank !! "A"%string = Some half → rank !! "B"%string = Some half →
  sweep two_cycle d rank = Ok (rank, 2%nat).
Proof.
  intros Hdom HA HB. unfold sweep. cbn [two_cycle keys fmap list_fmap fst for_each].
  fold two_cycle.
  assert (∀ q, q ∈ keys two_cycle → is_Some (rank !! q)) as Hall
    by (by apply pages_lookup).
  assert (∀ p count, p = "A"%string ∨ p = "B"%string →
            sweep_step two_cycle d p (rank, count) = Ok (rank, S count)) as Hstep.
  { intros p count Hp.
    assert (rank !! p = Some half) as Hp' by (by destruct Hp as [-> | ->]).
    rewrite (sweep_step_Ok two_cycle d p rank count half);
      [|apply two_cycle_dict|done| |done].
    - rewrite (new_rank_two_cycle d rank p) by done.
      rewrite insert_id by done. rewrite decide_True; [done|].
      by replace (half - half) with (Q2Qc 0) by ring.
    - destruct Hp as [-> | ->]; [by left|right; by left]. }
  rewrite Hstep by (by left). cbn [mbind result_bind].
  rewrite Hstep by (by right). done.
Qed.

(** C9.  On the two-page graph [A → B], [B → A] the iteration terminates
    after one sweep, for every damping factor (in particular for every one
    in [0,1)), and returns exactly 1/2 for both pages. *)
Theorem iterate_pagerank_two_cycle d fuel :
  ∃ ranks, iterate_pagerank (S fuel) two_cycle d = Some (Ok ranks)
    ∧ dom ranks = pages two_cycle
    ∧ ranks !! "A"%string = Some half
    ∧ ranks !! "B"%string = Some half.
Proof.
  unfold iterate_pagerank. rewrite first_distribution_fill.
  set (r0 := dict_fill (keys two_cycle)
               (1 / Qc_of_nat (length (keys two_cycle))) ∅).
  assert (1 / Qc_of_nat (length (keys two_cycle)) = half) as Hhalf
    by (by apply Qc_is_canon).
  assert (dom r0 = pages two_cycle) as Hdom.
  { unfold r0, pages. by rewrite dom_dict_fill, dom_empty_L, union_empty_r_L. }
  assert (r0 !! "A"%string = Some half) as HA.
  { unfold r0. rewrite lookup_dict_fill, decide_True, Hhalf; [done|by left]. }
  assert (r0 !! "B"%string = Some half) as HB.
  { unfold r0. rewrite lookup_dict_fill, decide_True, Hhalf; [done|].
    right. by left. }
  cbn [iterate_loop]. rewrite (two_cycle_sweep d r0) by done.
  rewrite decide_True by done.
  assert (dict_sum r0 = 1) as Hsum.
  { unfold r0. rewrite dict_sum_fill_fresh, dict_sum_empty;
      [|apply two_cycle_dict|done].
    rewrite Hhalf. by apply Qc_is_canon. }
  rewrite normalization_Ok by (by rewrite Hsum). rewrite Hsum.
  eexists. split; [done|]. split; [by rewrite dom_fmap_L|].
  rewrite !lookup_fmap, HA, HB. cbn [fmap option_fmap option_map].
  by rewrite Qcdiv_right_id.
Qed.

(** * Beyond the claims: [crawl] *)

Lemma half_unit : 0 ≤ half < 1.
Proof. done. Qed.

Lemma keys_corpus_set corpus k v :
  keys (corpus_set corpus k v)
  = if decide (k ∈ keys corpus) then keys corpus else keys corpus ++ [k].
Proof.
  unfold keys. induction corpus as [|[k' v'] corpus IH]; [done|].
  cbn [corpus_set]. destruct (decide (k' = k)) as [->|Hne].
  - rewrite !fmap_cons. cbn [fst]. by rewrite decide_True by (by left).
  - rewrite !fmap_cons, IH. cbn [fst].
    destruct (decide (k ∈ corpus.*1)) as [Hin|Hin].
    + by rewrite decide_True by (by right).
    + rewrite decide_False; [done|].
      intros [?|?]%elem_of_cons; congruence.
Qed.

Lemma corpus_get_set corpus k v k' :
  corpus_get (corpus_set corpus k v) k'
  = if decide (k = k') then Ok v else corpus_get corpus k'.
Proof.
  induction corpus as [|[k0 v0] corpus IH]; cbn [corpus_set corpus_get].
  - by destruct (decide (k = k')).
  - destruct (decide (k0 = k)) as [->|Hne]; cbn [corpus_get].
    + by destruct (decide (k = k')).
    + destruct (decide (k0 = k')) as [->|Hne'].
      * by rewrite decide_False by congruence.
      * apply IH.
Qed.

Lemma is_dict_corpus_set corpus k v :
  is_dict corpus → is_dict (corpus_set corpus k v).
Proof.
  unfold is_dict. rewrite keys_corpus_set. intros Hnd.
  destruct (decide (k ∈ keys corpus)) as [Hin|Hin]; [done|].
  apply NoDup_app. split; [done|]. split; [|apply NoDup_singleton].
  by intros x Hx ->%list_elem_of_singleton.
Qed.

Lemma elem_of_keys_corpus_set corpus k v x :
  x ∈ keys (corpus_set corpus k v) ↔ x = k ∨ x ∈ keys corpus.
Proof.
  rewrite keys_corpus_set. destruct (decide (k ∈ keys corpus)) as [Hin|Hin].
  - split; [by right|]. by intros [->|?].
  - rewrite elem_of_app, list_elem_of_singleton. tauto.
Qed.

Lemma extract_links_spec findall listing :
  ∃ pages, extract_links findall listing [] = Ok pages
         ∧ extracted findall listing pages.
Proof.
  unfold extract_links. apply (for_each_inv (extracted findall)).
  - split; [apply NoDup_nil_2|]. split.
    { intros f. split; [by intros ?%elem_of_nil|by intros [?%elem_of_nil _]]. }
    split; [done|]. done.
  - intros done [f contents] rest pages Hl (Hnd & Hkeys & Hget & Hord).
    destruct (is_html f) eqn:Hf; cbn [negb].
    + eexists. split; [done|]. split; [by apply is_dict_corpus_set|].
      split; [|split].
      * intros x. rewrite elem_of_keys_corpus_set, Hkeys, fmap_app, elem_of_app.
        cbn [fmap list_fmap fst]. rewrite list_elem_of_singleton.
        split; [intros [->|[Ha Hb]]; tauto|]. intros [[Ha| ->] Hb]; tauto.
      * intros x links. rewrite corpus_get_set.
        destruct (decide (f = x)) as [<-|Hne].
        -- intros [= <-]. split.
           { intros [_ Hf']%elem_of_difference. by apply Hf', elem_of_singleton. }
           exists contents.
           split; [|done]. apply elem_of_app. right. by left.
        -- intros (Hx & c & Hc & ->)%Hget. split; [done|]. exists c.
           split; [|done]. apply elem_of_app. by left.
      * rewrite fmap_app. cbn [fmap list_fmap fst]. intros Hnd'.
        apply NoDup_app in Hnd' as (Hnd1 & Hdisj & _).
        rewrite keys_corpus_set, decide_False.
        -- rewrite filter_app, Hord by done. f_equal.
           rewrite filter_cons_True by done. done.
        -- rewrite Hkeys. intros [Hin _]. apply (Hdisj f Hin). by left.
    + eexists. split; [done|]. split; [done|]. split; [|split].
      * intros x. rewrite Hkeys, fmap_app, elem_of_app.
        cbn [fmap list_fmap fst]. rewrite list_elem_of_singleton.
        split; [tauto|]. intros [[Ha| ->] Hb]; [tauto|congruence].
      * intros x links (Hx & c & Hc & ->)%Hget. split; [done|]. exists c.
        split; [|done]. apply elem_of_app. by left.
      * rewrite fmap_app. cbn [fmap list_fmap fst]. intros Hnd'.
        apply NoDup_app in Hnd' as (Hnd1 & _ & _).
        rewrite filter_app, Hord by done.
        rewrite filter_cons_False by congruence. by rewrite filter_nil, app_nil_r.
Qed.

(** The second loop keeps the keys and cuts every link set down to the
    keys. *)
Lemma restrict_links_spec pages0 :
  is_dict pages0 →
  ∃ pages, restrict_links pages0 = Ok pages
    ∧ keys pages = keys pages0
    ∧ ∀ f links0, corpus_get pages0 f = Ok links0 →
        corpus_get pages f = Ok (filter (λ x, x ∈ keys pages0) links0).
Proof.
  intros Hnd. unfold restrict_links.
  edestruct (for_each_inv
    (λ done (pages : corpus_t),
       keys pages = keys pages0
       ∧ ∀ f links0, corpus_get pages0 f = Ok links0 →
           corpus_get pages f
           = Ok (if decide (f ∈ done)
                 then filter (λ x, x ∈ keys pages0) links0 else links0))
    (keys pages0)
    (λ filename pages,
       links ← corpus_get pages filename;
       Ok (corpus_set pages filename
             (filter (λ link, link ∈ keys pages) links))) pages0)
    as (pages & Hrun & Hkeys & Hget).
  - split; [done|]. intros f links0 Hf.
    by rewrite decide_False by apply not_elem_of_nil.
  - intros done x rest pages Hl (Hkeys & Hget).
    assert (x ∈ keys pages0) as Hx by (rewrite Hl; apply elem_of_app; right; by left).
    assert (x ∉ done) as Hxd.
    { unfold is_dict in Hnd. rewrite Hl in Hnd.
      apply NoDup_app in Hnd as (_ & Hdisj & _). intros Hin.
      apply (Hdisj x Hin). by left. }
    destruct (corpus_get_key _ _ Hx) as [links0 Hx0].
    cbn beta. rewrite (Hget x links0 Hx0), decide_False by done.
    cbn [mbind result_bind].
    eexists. split; [done|]. split.
    + rewrite keys_corpus_set, Hkeys. by rewrite decide_True.
    + intros f l0 Hf. rewrite corpus_get_set.
      destruct (decide (x = f)) as [<-|Hne].
      * rewrite decide_True by (apply elem_of_app; right; by left).
        rewrite Hkeys. congruence.
      * rewrite (Hget f l0 Hf). f_equal.
        destruct (decide (f ∈ done)) as [Hd|Hd].
        -- by rewrite decide_True by (apply elem_of_app; by left).
        -- rewrite decide_False; [done|].
           intros [?|?%list_elem_of_singleton]%elem_of_app; congruence.
  - exists pages. split; [done|]. split; [done|]. intros f links0 Hf.
    rewrite (Hget f links0 Hf). by rewrite decide_True by eauto using corpus_get_in_keys.
Qed.

Lemma NoDup_fst_functional {A B : Type} (l : list (A * B)) x y1 y2 :
  NoDup l.*1 → (x, y1) ∈ l → (x, y2) ∈ l → y1 = y2.
Proof.
  induction l as [|[a b] l IH]; [by intros _ ?%elem_of_nil|].
  rewrite fmap_cons. cbn [fst]. intros [Ha Hnd]%NoDup_cons.
  intros H1 H2. apply elem_of_cons in H1, H2.
  destruct H1 as [H1|H1], H2 as [H2|H2].
  - congruence.
  - injection H1 as -> ->. destruct Ha. apply list_elem_of_fmap. by exists (a, y2).
  - injection H2 as -> ->. destruct Ha. apply list_elem_of_fmap. by exists (a, y1).
  - by apply IH.
Qed.


(** Only the [.html] files of the listing matter. *)
Lemma crawl_filter_html findall listing :
  crawl findall listing
  = crawl findall (filter (λ fc, is_html fc.1 = true) listing).
Proof.
  unfold crawl. f_equal. unfold extract_links. generalize ([] : corpus_t).
  induction listing as [|[f c] listing IH]; intros pages; [done|].
  destruct (is_html f) eqn:Hf.
  - rewrite filter_cons_True by done. cbn [for_each]. rewrite Hf. cbn [negb].
    cbn [mbind result_bind]. apply IH.
  - rewrite filter_cons_False by (cbn [fst]; congruence).
    cbn [for_each]. rewrite Hf. cbn [negb mbind result_bind]. apply IH.
Qed.


(** X2.  For a listing with distinct names, the pages of the graph are
    exactly the names that end in [.html], in listing order, and the links
    of a page are the extracted targets of its own text that are pages of
    the graph other than the page itself. *)
Theorem crawl_pages_and_links findall listing :
  NoDup listing.*1 →
  ∃ pages, crawl findall listing = Ok pages
    ∧ keys pages = filter (λ f, is_html f = true) listing.*1
    ∧ ∀ f contents, (f, contents) ∈ listing → is_html f = true →
        ∃ links, corpus_get pages f = Ok links
          ∧ ∀ x, x ∈ links ↔
                 x ∈ findall contents ∧ x ≠ f
                 ∧ x ∈ listing.*1 ∧ is_html x = true.
Proof.
  intros Hnames. unfold crawl.
  destruct (extract_links_spec findall listing)
    as (pages0 & -> & Hnd0 & Hk0 & Hl0 & Hord).
  cbn [mbind result_bind].
  destruct (restrict_links_spec pages0 Hnd0) as (pages & -> & Hkeys & Hget).
  exists pages. split; [done|]. split; [by rewrite Hkeys, Hord|].
  intros f contents Hin Hf.
  assert (f ∈ keys pages0) as Hfk.
  { apply Hk0. split; [|done]. apply list_elem_of_fmap. by exists (f, contents). }
  destruct (corpus_get_key _ _ Hfk) as [links0 H0].
  destruct (Hl0 _ _ H0) as (_ & c & Hc & ->).
  assert (c = contents) as -> by (by eapply NoDup_fst_functional).
  eexists. split; [by apply Hget|]. intros x.
  rewrite elem_of_filter, elem_of_difference, elem_of_list_to_set,
    elem_of_singleton, Hk0. tauto.
Qed.

Lemma crawl_pages_and_links_witness :
  ∃ pages, crawl demo_findall demo_listing = Ok pages
    ∧ keys pages = filter (λ f, is_html f = true) demo_listing.*1
    ∧ ∀ f contents, (f, contents) ∈ demo_listing → is_html f = true →
        ∃ links, corpus_get pages f = Ok links
          ∧ ∀ x, x ∈ links ↔
                 x ∈ demo_findall contents ∧ x ≠ f
                 ∧ x ∈ demo_listing.*1 ∧ is_html x = true.
Proof.
  apply (crawl_pages_and_links demo_findall demo_listing).
  apply (bool_decide_unpack _). vm_compute. exact I.
Defined.

(** X3.  Files whose name does not end in [.html] play no part: the text of
    such a file is never looked at, and removing them from the directory
    does not change the graph. *)
Theorem crawl_ignores_other_files findall listing :
  crawl findall listing
  = crawl findall (filter (λ fc, is_html fc.1 = true) listing).
Proof. apply crawl_filter_html. Qed.

(** * Beyond the claims: [transition_model] *)

(** X4.  [transition_model] fails exactly when the page is not a key of the
    corpus, and then with [KeyError]; from a key it returns a map, for every
    corpus (closed or not) and every damping factor. *)
Theorem transition_model_key_error corpus page d :
  (page ∈ keys corpus → ∃ pd, transition_model corpus page d = Ok pd)
  ∧ (page ∉ keys corpus → transition_model corpus page d = Raise KeyError).
Proof.
  split.
  - intros [links Hget]%corpus_get_key.
    destruct (decide (size links = 0%nat)) as [Hsz|Hsz].
    + rewrite (transition_model_dangling _ _ _ _ Hget Hsz). by eexists.
    + rewrite (transition_model_links _ _ _ _ Hget Hsz). by eexists.
  - intros Hpage. unfold transition_model.
    destruct (corpus_get corpus page) as [links|e] eqn:Hget.
    + by apply corpus_get_in_keys in Hget.
    + by apply corpus_get_raise in Hget as ->.
Qed.

(** The keys of the transition map on any corpus. *)
Lemma transition_model_dom_any corpus page d links pd :
  corpus_get corpus page = Ok links →
  transition_model corpus page d = Ok pd → dom pd = pages corpus ∪ links.
Proof.
  intros Hget. destruct (decide (size links = 0%nat)) as [Hsz|Hsz].
  - rewrite (transition_model_dangling _ _ _ _ Hget Hsz). intros [= <-].
    apply size_empty_inv, leibniz_equiv in Hsz. subst links.
    unfold pages. by rewrite dom_dict_fill, dom_empty_L, !union_empty_r_L.
  - rewrite (transition_model_links _ _ _ _ Hget Hsz). intros [= <-].
    unfold pages. rewrite !dom_dict_fill, dom_empty_L, union_empty_r_L.
    rewrite list_to_set_elements_L. apply (comm_L (∪)).
Qed.

(** X5.  On any corpus the keys of the transition map are the pages
    together with the link targets of the page: a link target that is no
    page of the corpus becomes a key of its own, so the key set is the page
    set exactly when the links of the page stay inside the corpus. *)
Theorem transition_model_keys corpus page d links pd :
  corpus_get corpus page = Ok links →
  transition_model corpus page d = Ok pd →
  dom pd = pages corpus ∪ links
  ∧ (dom pd = pages corpus ↔ links ⊆ pages corpus).
Proof.
  intros Hget Htm.
  pose proof (transition_model_dom_any _ _ _ _ _ Hget Htm) as Hdom.
  split; [done|]. rewrite Hdom. split.
  - intros Heq x Hx. rewrite <-Heq. apply elem_of_union. by right.
  - intros Hsub. rewrite (comm_L (∪)). by apply subseteq_union_1_L.
Qed.

Lemma transition_model_keys_witness :
  dom (dict_fill (elements ({["B"%string]} : gset string))
         (half / Qc_of_nat (size ({["B"%string]} : gset string))
          + (1 - half) / Qc_of_nat (length (keys chain)))
         (dict_fill (keys chain)
            ((1 - half) / Qc_of_nat (length (keys chain))) ∅))
  = pages chain ∪ {["B"%string]}
  ∧ (dom (dict_fill (elements ({["B"%string]} : gset string))
            (half / Qc_of_nat (size ({["B"%string]} : gset string))
             + (1 - half) / Qc_of_nat (length (keys chain)))
            (dict_fill (keys chain)
               ((1 - half) / Qc_of_nat (length (keys chain))) ∅))
     = pages chain ↔ {["B"%string]} ⊆ pages chain).
Proof.
  apply (transition_model_keys chain "A" half {["B"%string]}); [reflexivity|].
  by apply transition_model_links.
Defined.

Lemma Qcdiv_nat_le (x : Qc) n : 0 ≤ x → (1 ≤ n)%nat → x / Qc_of_nat n ≤ x.
Proof.
  intros Hx Hn. assert (0 < Qc_of_nat n) as Hpos by (apply Qc_of_nat_pos; lia).
  assert (1 ≤ Qc_of_nat n) as H1.
  { rewrite <-Z2Qc_inj_1. unfold Qc_of_nat. apply (proj1 (Z2Qc_inj_le 1 _)). lia. }
  apply (Qcmult_le_mono_pos_r _ _ (Qc_of_nat n) Hpos).
  unfold Qcdiv. rewrite <-Qcmult_assoc, Qcmult_inv_l, Qcmult_1_r.
  - rewrite <-(Qcmult_1_r x) at 1. by apply Qcmult_le_mono_nonneg_l.
  - intros Heq. rewrite Heq in Hpos. by apply (irreflexivity Qclt 0).
Qed.

Lemma Qcdiv_nat_nonneg (x : Qc) n : 0 ≤ x → 0 ≤ x / Qc_of_nat n.
Proof.
  intros Hx. destruct n as [|n].
  - rewrite Qc_of_nat_0. unfold Qcdiv. by rewrite Qcmult_0_r.
  - unfold Qcdiv. apply Qcmult_nonneg_nonneg; [done|].
    apply Qclt_le_weak, Qcinv_pos, Qc_of_nat_pos. lia.
Qed.

Lemma Qcdiv_nat_pos (x : Qc) n : 0 < x → (1 ≤ n)%nat → 0 < x / Qc_of_nat n.
Proof.
  intros Hx Hn. unfold Qcdiv. apply Qcmult_pos_pos; [done|].
  by apply Qcinv_pos, Qc_of_nat_pos.
Qed.

(** X6.  For a damping factor in [0,1] every value of the transition map is
    a probability, between 0 and 1, on any corpus; when the damping factor
    is below 1 every value is strictly positive, so every page can be
    reached in one step. *)
Theorem transition_model_probabilities corpus page d pd :
  0 ≤ d ≤ 1 → transition_model corpus page d = Ok pd →
  ∀ p v, pd !! p = Some v → 0 ≤ v ≤ 1 ∧ (d < 1 → 0 < v).
Proof.
  intros [Hd0 Hd1] Htm p v Hv.
  destruct (corpus_get corpus page) as [links|e] eqn:Hget.
  2:{ unfold transition_model in Htm. by rewrite Hget in Htm. }
  assert (1 ≤ length (keys corpus))%nat as HN.
  { apply corpus_get_in_keys in Hget. destruct (keys corpus); [|simpl; lia].
    by apply elem_of_nil in Hget. }
  assert (0 ≤ 1 - d) as H1d.
  { apply (Qcplus_le_mono_r _ _ d). by replace (1 - d + d) with 1 by ring;
      rewrite Qcplus_0_l. }
  destruct (decide (size links = 0%nat)) as [Hsz|Hsz].
  - rewrite (transition_model_dangling _ _ _ _ Hget Hsz) in Htm.
    injection Htm as <-. rewrite lookup_dict_fill, lookup_empty in Hv.
    destruct (decide (p ∈ keys corpus)); [|done]. injection Hv as <-.
    split; [split|intros _].
    + by apply Qcdiv_nat_nonneg.
    + by apply Qcdiv_nat_le.
    + by apply Qcdiv_nat_pos.
  - rewrite (transition_model_links _ _ _ _ Hget Hsz) in Htm.
    injection Htm as <-. rewrite !lookup_dict_fill, lookup_empty in Hv.
    assert (1 ≤ size links)%nat as Hsz' by lia.
    pose proof (Qcdiv_nat_nonneg d (size links) Hd0) as Ha0.
    pose proof (Qcdiv_nat_le d (size links) Hd0 Hsz') as Ha1.
    pose proof (Qcdiv_nat_nonneg (1 - d) (length (keys corpus)) H1d) as Hb0.
    pose proof (Qcdiv_nat_le (1 - d) (length (keys corpus)) H1d HN) as Hb1.
    assert (d < 1 → 0 < (1 - d) / Qc_of_nat (length (keys corpus))) as Hbpos.
    { intros Hlt. apply Qcdiv_nat_pos; [|done].
      apply (Qcplus_lt_mono_r _ _ d). by replace (1 - d + d) with 1 by ring;
        rewrite Qcplus_0_l. }
    destruct (decide (p ∈ elements links)).
    + injection Hv as <-. split; [split|intros Hlt].
      * by apply Qcplus_nonneg_nonneg.
      * eapply Qcle_trans; [apply Qcplus_le_compat; [exact Ha1|exact Hb1]|].
        by assert (d + (1 - d) = 1) as -> by ring.
      * apply Qcplus_nonneg_pos; auto.
    + destruct (decide (p ∈ keys corpus)); [|done]. injection Hv as <-.
      split; [split|done]; [done|]. trans (1 - d); [done|].
      rewrite <-(Qcplus_0_r 1) at 2. unfold Qcminus. apply Qcplus_le_mono_l.
      apply (Qcplus_le_mono_r _ _ d). by replace (- d + d) with 0 by ring;
        rewrite Qcplus_0_l.
Qed.

Lemma transition_model_probabilities_witness :
  0 ≤ half / Qc_of_nat (size ({["B"%string]} : gset string))
      + (1 - half) / Qc_of_nat (length (keys chain)) ≤ 1
  ∧ (half < 1 →
     0 < half / Qc_of_nat (size ({["B"%string]} : gset string))
         + (1 - half) / Qc_of_nat (length (keys chain))).
Proof.
  assert (size ({["B"%string]} : gset string) ≠ 0%nat) as Hsz
    by (by rewrite size_singleton).
  pose proof (transition_model_links chain "A" half {["B"%string]} eq_refl Hsz)
    as Htm.
  assert (0 ≤ half ≤ 1) as Hd by done.
  apply (transition_model_probabilities chain "A" half _ Hd Htm "B"%string).
  rewrite lookup_dict_fill. rewrite decide_True; [done|].
  apply elem_of_elements. by apply elem_of_singleton.
Defined.

(** * Beyond the claims: [sample_pagerank] *)

Lemma Z_sum_ge_length l : (∀ x, x ∈ l → (1 ≤ x)%Z) → (Z.of_nat (length l) ≤ Z_sum l)%Z.
Proof.
  induction l as [|x l IH]; intros Hl; simpl; [done|].
  assert (1 ≤ x)%Z by (apply Hl; by left).
  assert (Z.of_nat (length l) ≤ Z_sum l)%Z by (apply IH; intros y Hy; apply Hl; by right).
  unfold Z_sum in *. lia.
Qed.

Lemma Z_sum_ge_elem l x : (∀ y, y ∈ l → (0 ≤ y)%Z) → x ∈ l → (x ≤ Z_sum l)%Z.
Proof.
  induction l as [|y l IH]; intros Hl Hx; [by apply elem_of_nil in Hx|].
  assert (0 ≤ y)%Z by (apply Hl; by left).
  assert (0 ≤ Z_sum l)%Z.
  { clear IH Hx. induction l as [|z l IH]; simpl; [done|].
    assert (0 ≤ z)%Z by (apply Hl; right; by left).
    assert (0 ≤ Z_sum l)%Z.
    { apply IH. intros w [->|Hw]%elem_of_cons; apply Hl; [by left|right; by right]. }
    unfold Z_sum in *. lia. }
  apply elem_of_cons in Hx as [->|Hx]; simpl.
  - unfold Z_sum in *. lia.
  - assert (x ≤ Z_sum l)%Z by (apply IH; [intros w Hw; apply Hl; by right|done]).
    unfold Z_sum in *. lia.
Qed.

Lemma dict_values_elem {V : Type} (d : gmap string V) v :
  v ∈ dict_values d ↔ ∃ k, d !! k = Some v.
Proof.
  unfold dict_values. rewrite list_elem_of_fmap. split.
  - intros ([k v'] & -> & Hkv%elem_of_map_to_list). by exists k.
  - intros [k Hk]. exists (k, v). split; [done|by apply elem_of_map_to_list].
Qed.

(** What [sample_pagerank] returns on a graph, for every [n ≥ 1] and every
    draw: the counts of [sample_visits], each divided by [n]. *)
Lemma sample_pagerank_Ok corpus d n rng :
  is_dict corpus → closed corpus → corpus ≠ [] → (1 ≤ n)%Z →
  ∃ pr_dict visited,
    sample_pagerank corpus d n rng
    = Ok ((λ c, Qc_of_Z c / Qc_of_Z n) <$> pr_dict)
    ∧ walk corpus d n rng = Ok visited
    ∧ dom pr_dict = list_to_set visited
    ∧ (∀ k c, pr_dict !! k = Some c → (0 < c)%Z)
    ∧ count_sum pr_dict = n
    ∧ (∀ p, p ∈ visited → p ∈ keys corpus).
Proof.
  intros Hnd Hcl Hne Hn.
  destruct (sample_visits_walk corpus d n rng Hnd Hcl Hne)
    as (pr & vis & Hpr & Hwalk & Hdom & Hpos & Hsum & Hvis).
  exists pr, vis. split.
  { unfold sample_pagerank. rewrite Hpr. cbn [mbind result_bind].
    apply counts_to_ranks. lia. }
  repeat split; try done. lia.
Qed.

(** X7.  With [n = 1] the sampler draws only the start page and returns the
    one-entry map giving it probability exactly 1, on every non-empty
    corpus. *)
Theorem sample_pagerank_one corpus d rng :
  corpus ≠ [] →
  ∃ start, random_choice (keys corpus) (rng 0%nat) = Ok start
    ∧ start ∈ keys corpus
    ∧ sample_pagerank corpus d 1 rng = Ok {[start := 1]}.
Proof.
  intros Hne. unfold sample_pagerank, sample_visits.
  destruct (random_choice_Ok (keys corpus) (rng 0%nat)) as (start & Hs & Hin).
  { unfold keys. by destruct corpus. }
  exists start. split; [done|]. split; [done|]. rewrite Hs.
  cbn [mbind result_bind]. unfold range.
  replace (Z.to_nat (1 - Z.of_nat 1)) with 0%nat by lia.
  cbn [seq for_each mbind result_bind snd].
  rewrite counts_to_ranks by done. rewrite map_fmap_singleton.
  by assert (Qc_of_Z 1 / Qc_of_Z 1 = 1) as -> by (by apply Qc_is_canon).
Qed.

Lemma sample_pagerank_one_witness :
  ∃ start, random_choice (keys chain) 2%nat = Ok start
    ∧ start ∈ keys chain
    ∧ sample_pagerank chain half 1 (λ _, 2%nat) = Ok {[start := 1]}.
Proof. apply (sample_pagerank_one chain half (λ _, 2%nat)). done. Defined.

(** X8.  For a graph, [n ≥ 1] and every draw, each value the sampler
    returns is a probability in (0,1], and the map has at most [n] keys and
    at most as many keys as the graph has pages. *)
Theorem sample_pagerank_support corpus d n rng :
  is_dict corpus → closed corpus → corpus ≠ [] → (1 ≤ n)%Z →
  ∃ ranks, sample_pagerank corpus d n rng = Ok ranks
    ∧ (∀ p v, ranks !! p = Some v → 0 < v ≤ 1)
    ∧ (Z.of_nat (size ranks) ≤ n)%Z
    ∧ (size ranks ≤ length (keys corpus))%nat.
Proof.
  intros Hnd Hcl Hne Hn.
  destruct (sample_pagerank_Ok corpus d n rng Hnd Hcl Hne Hn)
    as (pr & vis & Hr & _ & Hdom & Hpos & Hsum & Hvis).
  eexists. split; [done|].
  assert (0 < Qc_of_Z n) as Hnpos.
  { rewrite <-Z2Qc_inj_0. apply (proj1 (Z2Qc_inj_lt 0 n)). lia. }
  split; [|split].
  - intros p v. rewrite lookup_fmap.
    destruct (pr !! p) as [c|] eqn:Hc; [|done]. intros [= <-].
    assert (c ≤ n)%Z as Hcn.
    { rewrite <-Hsum. apply Z_sum_ge_elem.
      - intros y [k Hk]%dict_values_elem. apply Hpos in Hk. lia.
      - apply dict_values_elem. by exists p. }
    split.
    + unfold Qcdiv. apply Qcmult_pos_pos; [|by apply Qcinv_pos].
      rewrite <-Z2Qc_inj_0. apply (proj1 (Z2Qc_inj_lt 0 c)). eauto.
    + apply (Qcmult_le_mono_pos_r _ _ (Qc_of_Z n) Hnpos).
      unfold Qcdiv. rewrite <-Qcmult_assoc, Qcmult_inv_l, Qcmult_1_r, Qcmult_1_l.
      * by apply (proj1 (Z2Qc_inj_le c n)).
      * intros Heq. rewrite Heq in Hnpos. by apply (irreflexivity Qclt 0).
  - rewrite map_size_fmap, <-length_map_to_list, <-Hsum.
    unfold count_sum, dict_values.
    rewrite <-(length_fmap snd (map_to_list pr)).
    apply Z_sum_ge_length. intros x [k Hk]%dict_values_elem.
    apply Hpos in Hk. lia.
  - rewrite map_size_fmap, <-(size_dom (D:=gset string)), Hdom.
    trans (size (pages corpus)).
    + apply subseteq_size. intros p Hp%elem_of_list_to_set.
      apply elem_of_list_to_set. auto.
    + unfold pages. by rewrite size_list_to_set.
Qed.

Lemma sample_pagerank_support_witness :
  ∃ ranks, sample_pagerank chain half 5 (λ i, i) = Ok ranks
    ∧ (∀ p v, ranks !! p = Some v → 0 < v ≤ 1)
    ∧ (Z.of_nat (size ranks) ≤ 5)%Z
    ∧ (size ranks ≤ length (keys chain))%nat.
Proof.
  apply (sample_pagerank_support chain half 5 (λ i, i));
    [apply chain_dict|apply chain_closed|done|lia].
Defined.

(** X9.  On a graph with a single page the sampler returns that page with
    probability exactly 1, for every [n ≥ 1], damping factor and draw. *)
Theorem sample_pagerank_single_page page links d n rng :
  closed [(page, links)] → (1 ≤ n)%Z →
  sample_pagerank [(page, links)] d n rng = Ok {[page := 1]}.
Proof.
  intros Hcl Hn.
  destruct (sample_pagerank_Ok [(page, links)] d n rng)
    as (pr & vis & -> & _ & Hdom & Hpos & Hsum & Hvis); [|done|done|done|].
  { unfold is_dict. cbn. apply NoDup_singleton. }
  assert (∀ k c, pr !! k = Some c → k = page) as Hk.
  { intros k c Hkc. assert (k ∈ dom pr) as Hin by (by apply elem_of_dom).
    rewrite Hdom in Hin. apply elem_of_list_to_set, Hvis in Hin.
    by apply list_elem_of_singleton in Hin. }
  assert (pr = {[page := n]}) as ->.
  { destruct (pr !! page) as [c|] eqn:Hc.
    - assert (pr = {[page := c]}) as ->.
      { apply map_eq. intros k. destruct (decide (k = page)) as [->|Hne].
        - by rewrite lookup_singleton_eq.
        - rewrite lookup_singleton_ne by done.
          destruct (pr !! k) as [c'|] eqn:Hc'; [|done]. by apply Hk in Hc'. }
      rewrite count_sum_singleton in Hsum. by subst c.
    - assert (pr = ∅) as ->.
      { apply map_eq. intros k. rewrite lookup_empty.
        destruct (pr !! k) as [c'|] eqn:Hc'; [|done].
        apply Hk in Hc' as Heq. congruence. }
      unfold count_sum, dict_values in Hsum. rewrite map_to_list_empty in Hsum.
      simpl in Hsum. lia. }
  rewrite map_fmap_singleton.
  assert (Qc_of_Z n ≠ 0) by (apply Qc_of_Z_ne_0; lia).
  assert (Qc_of_Z n / Qc_of_Z n = 1) as ->; [|done].
  unfold Qcdiv. by rewrite Qcmult_inv_r.
Qed.

Lemma sample_pagerank_single_page_witness :
  sample_pagerank [("A"%string, ∅)] half 7 (λ i, i) = Ok {["A"%string := 1]}.
Proof.
  apply (sample_pagerank_single_page "A" ∅ half 7 (λ i, i)); [|lia].
  apply single_page_closed.
Defined.

(** * Beyond the claims: [iterate_pagerank] *)

Lemma Qcabs_0 : Qcabs 0 < tolerance.
Proof. done. Qed.

Lemma Qcabs_diag (x : Qc) : Qcabs (x - x) < tolerance.
Proof. assert (x - x = 0) as -> by ring. apply Qcabs_0. Qed.

Lemma settled_insert_ne (before cur : gmap string Qc) x v p :
  p ≠ x → settled before (<[x:=v]> cur) p ↔ settled before cur p.
Proof. intros Hne. unfold settled. by rewrite lookup_insert_ne. Qed.

Lemma settled_insert_eq (before cur : gmap string Qc) x v a :
  before !! x = Some a →
  settled before (<[x:=v]> cur) x ↔ Qcabs (a - v) < tolerance.
Proof.
  intros Ha. unfold settled. rewrite lookup_insert_eq, Ha. split.
  - by intros (a' & b & [= <-] & [= <-] & Hlt).
  - intros Hlt. by exists a, v.
Qed.

(** What [count] counts: after a sweep it is the number of pages that
    settled, so it reaches the number of pages exactly when all did. *)
Lemma sweep_settled corpus d (ranks ranks' : gmap string Qc) count :
  is_dict corpus → dom ranks = pages corpus →
  sweep corpus d ranks = Ok (ranks', count) →
  dom ranks' = pages corpus
  ∧ (count ≤ length (keys corpus))%nat
  ∧ (count = length (keys corpus)
     ↔ ∀ p, p ∈ keys corpus → settled ranks ranks' p).
Proof.
  intros Hnd Hdom Hsweep. unfold sweep in Hsweep.
  cut (dom ranks' = pages corpus
       ∧ (∀ q, q ∉ keys corpus → ranks' !! q = ranks !! q)
       ∧ (count ≤ length (keys corpus))%nat
       ∧ (count = length (keys corpus)
          ↔ ∀ p, p ∈ keys corpus → settled ranks ranks' p)); [tauto|].
  revert Hsweep.
  apply (for_each_inv_partial
    (λ done (st : gmap string Qc * nat),
       dom st.1 = pages corpus
       ∧ (∀ q, q ∉ done → st.1 !! q = ranks !! q)
       ∧ (st.2 ≤ length done)%nat
       ∧ (st.2 = length done ↔ ∀ p, p ∈ done → settled ranks st.1 p))
    (keys corpus) (sweep_step corpus d) (ranks, 0%nat) (ranks', count)).
  - split; [done|]. split; [done|]. split; [done|].
    split; [by intros _ p ?%elem_of_nil|done].
  - intros done x rest [cur c] st' Hl (Hd & Hrest & Hle & Hiff).
    cbn [fst snd] in *.
    assert (x ∈ keys corpus) as Hx by (rewrite Hl; apply elem_of_app; right; by left).
    assert (x ∉ done) as Hxd.
    { unfold is_dict in Hnd. rewrite Hl in Hnd.
      apply NoDup_app in Hnd as (_ & Hdisj & _). intros Hin.
      apply (Hdisj x Hin). by left. }
    destruct (pages_lookup corpus cur Hd x Hx) as [old Hold].
    rewrite (sweep_step_Ok corpus d x cur c old) by eauto using pages_lookup.
    intros [= <-]. cbn [fst snd].
    assert (ranks !! x = Some old) as Hold' by (by rewrite <-Hrest).
    assert (∀ p, p ∈ done →
              settled ranks (<[x:=new_rank corpus d cur x]> cur) p
              ↔ settled ranks cur p) as Hdone.
    { intros p Hp. apply settled_insert_ne. by intros ->. }
    pose proof (settled_insert_eq ranks cur x (new_rank corpus d cur x) old Hold')
      as Hnew.
    split; [|split; [|split]].
    + rewrite dom_insert_L, Hd. apply subseteq_union_1_L.
      intros y ->%elem_of_singleton. by apply elem_of_list_to_set.
    + intros q Hq. rewrite lookup_insert_ne; [apply Hrest|].
      * intros Hin. apply Hq, elem_of_app. by left.
      * intros ->. apply Hq, elem_of_app. right. by left.
    + rewrite length_app. simpl. destruct (decide _); lia.
    + rewrite length_app. simpl.
      destruct (decide (Qcabs (old - new_rank corpus d cur x) < tolerance))
        as [Hlt|Hge].
      * split.
        -- intros Hc. assert (c = length done) as Hc' by lia.
           intros p [Hp| ->%list_elem_of_singleton]%elem_of_app.
           ++ apply Hdone; [done|]. by apply Hiff.
           ++ by apply Hnew.
        -- intros Hall. assert (c = length done); [|lia]. apply Hiff.
           intros p Hp. apply Hdone; [done|]. apply Hall, elem_of_app. by left.
      * split; [lia|]. intros Hall. destruct Hge. apply Hnew, Hall.
        apply elem_of_app. right. by left.
Qed.

(** Lines 141-145 in all cases: nothing to do on an empty dictionary, a
    division by zero when the ranks sum to zero. *)
Lemma normalization_cases (iterate_dict : gmap string Qc) :
  normalization iterate_dict
  = if decide (iterate_dict = ∅) then Ok ∅
    else if decide (dict_sum iterate_dict = 0) then Raise ZeroDivisionError
    else Ok ((λ v, v / dict_sum iterate_dict) <$> iterate_dict).
Proof.
  destruct (decide (iterate_dict = ∅)) as [->|Hne]; [apply normalization_empty|].
  destruct (decide (dict_sum iterate_dict = 0)) as [Hz|Hnz];
    [|by apply normalization_Ok].
  unfold normalization. rewrite dict_total_sum, Hz. cbn [mbind result_bind].
  unfold dict_keys. destruct (map_to_list iterate_dict) as [|[k v] l] eqn:Hl.
  - by apply map_to_list_empty_iff in Hl.
  - assert (iterate_dict !! k = Some v) as Hk.
    { apply elem_of_map_to_list. rewrite Hl. by left. }
    assert (dict_get iterate_dict k = Ok v) as Hg
      by (unfold dict_get; by rewrite Hk).
    rewrite fmap_cons. cbn [fst for_each]. rewrite Hg.
    cbn [mbind result_bind]. by rewrite truediv_zero.
Qed.

(** On a corpus with distinct keys the loop raises nothing. *)
Lemma iterate_loop_Ok fuel corpus d (ranks : gmap string Qc) res :
  is_dict corpus → dom ranks = pages corpus →
  iterate_loop fuel corpus d ranks = Some res →
  ∃ prev final,
    res = Ok final ∧ dom prev = pages corpus ∧ dom final = pages corpus
    ∧ sweep corpus d prev = Ok (final, length (keys corpus)).
Proof.
  intros Hnd. revert ranks.
  induction fuel as [|fuel IH]; intros ranks Hdom; simpl; [done|].
  destruct (sweep_in_place_inv corpus d ranks Hnd Hdom)
    as ([ranks' count] & Hsweep & Hdom' & _).
  rewrite Hsweep. cbn [fst] in Hdom'.
  destruct (decide (count = length (keys corpus))) as [->|Hne].
  - intros [= <-]. by exists ranks, ranks'.
  - by apply IH.
Qed.

Lemma first_distribution_dom corpus :
  dom (dict_fill (keys corpus) (1 / Qc_of_nat (length (keys corpus)))
         (∅ : gmap string Qc)) = pages corpus.
Proof. unfold pages. by rewrite dom_dict_fill, dom_empty_L, union_empty_r_L. Qed.

Lemma pages_nonempty corpus (ranks : gmap string Qc) :
  corpus ≠ [] → dom ranks = pages corpus → ranks ≠ ∅.
Proof.
  intros Hne Hdom ->. rewrite dom_empty_L in Hdom.
  destruct corpus as [|[k l] corpus]; [done|].
  assert (k ∈ pages ((k, l) :: corpus)) as Hk.
  { apply elem_of_list_to_set. by left. }
  rewrite <-Hdom in Hk. by apply not_elem_of_empty in Hk.
Qed.

(** X10.  What convergence means on return: when [iterate_pagerank]
    returns a map, the last sweep of its loop changed the rank of every page
    by less than the tolerance 0.0001 (each page compared with its own
    value before that sweep), and the map returned is the result of that
    sweep divided by its total. *)
Theorem iterate_pagerank_converged fuel corpus d ranks :
  is_dict corpus → corpus ≠ [] →
  iterate_pagerank fuel corpus d = Some (Ok ranks) →
  ∃ prev final,
    sweep corpus d prev = Ok (final, length (keys corpus))
    ∧ (∀ p, p ∈ keys corpus → settled prev final p)
    ∧ dict_sum final ≠ 0
    ∧ ranks = (λ v, v / dict_sum final) <$> final.
Proof.
  intros Hnd Hne. unfold iterate_pagerank. rewrite first_distribution_fill.
  destruct (iterate_loop fuel corpus d _) as [res|] eqn:Hloop; [|done].
  destruct (iterate_loop_Ok _ _ _ _ _ Hnd (first_distribution_dom corpus) Hloop)
    as (prev & final & -> & Hdp & Hdf & Hsweep).
  rewrite normalization_cases.
  rewrite decide_False by (by eapply pages_nonempty).
  destruct (decide (dict_sum final = 0)); [done|]. intros [= <-].
  exists prev, final. split; [done|]. split; [|done].
  by apply (sweep_settled corpus d prev final _ Hnd Hdp Hsweep).
Qed.

Lemma iterate_pagerank_converged_witness :
  ∃ ranks, iterate_pagerank 3 chain half = Some (Ok ranks)
  ∧ ∃ prev final,
      sweep chain half prev = Ok (final, length (keys chain))
      ∧ (∀ p, p ∈ keys chain → settled prev final p)
      ∧ dict_sum final ≠ 0
      ∧ ranks = (λ v, v / dict_sum final) <$> final.
Proof.
  destruct (iterate_pagerank 3 chain half) as [[ranks|e]|] eqn:Hres;
    [|by vm_compute in Hres..].
  exists ranks. split; [done|].
  apply (iterate_pagerank_converged 3 chain half ranks);
    [apply chain_dict|discriminate|exact Hres].
Defined.

(** X11.  On a corpus with distinct keys the only exception
    [iterate_pagerank] can raise is the division by zero of the
    normalization, when the final ranks sum to zero; for a damping factor in
    [0,1) it raises nothing. *)
Theorem iterate_pagerank_raises fuel corpus d e :
  is_dict corpus → iterate_pagerank fuel corpus d = Some (Raise e) →
  e = ZeroDivisionError ∧ corpus ≠ [] ∧ ¬ (0 ≤ d < 1).
Proof.
  intros Hnd. unfold iterate_pagerank. rewrite first_distribution_fill.
  destruct (iterate_loop fuel corpus d _) as [res|] eqn:Hloop; [|done].
  destruct (iterate_loop_Ok _ _ _ _ _ Hnd (first_distribution_dom corpus) Hloop)
    as (prev & final & -> & Hdp & Hdf & Hsweep).
  rewrite normalization_cases.
  destruct (decide (final = ∅)) as [->|Hfne]; [done|].
  destruct (decide (dict_sum final = 0)) as [Hz|]; [|done]. intros [= <-].
  assert (corpus ≠ []) as Hne.
  { intros ->. apply Hfne. apply dom_empty_inv_L. by rewrite Hdf. }
  split; [done|]. split; [done|]. intros [Hd0 Hd1].
  destruct (iterate_loop_bounds fuel corpus d _ (Ok final) Hnd Hne Hd0 Hd1
              (first_distribution_dom corpus))
    as (final' & [= <-] & _ & Hge); [|done|].
  { intros q v. rewrite lookup_dict_fill, lookup_empty.
    destruct (decide (q ∈ keys corpus)); [|done]. intros [= <-].
    apply Qcdiv_nat_nonneg. done. }
  assert (0 < dict_sum final) as Hpos.
  { apply dict_sum_pos; [done|]. intros k v Hk.
    eapply Qclt_le_trans; [by apply base_rank_pos|eauto]. }
  rewrite Hz in Hpos. by apply (irreflexivity Qclt 0).
Qed.

Lemma iterate_pagerank_raises_witness :
  ZeroDivisionError = ZeroDivisionError ∧ single_page ≠ [] ∧ ¬ (0 ≤ 1 < 1).
Proof.
  apply (iterate_pagerank_raises 2 single_page 1 ZeroDivisionError);
    [apply single_page_dict|by vm_compute].
Defined.

(** A rank map that the update formula leaves unchanged is left unchanged
    by the sweep, which counts every page as settled. *)
Lemma sweep_fixed_point corpus d (ranks : gmap string Qc) :
  is_dict corpus → dom ranks = pages corpus →
  (∀ p v, ranks !! p = Some v → new_rank corpus d ranks p = v) →
  sweep corpus d ranks = Ok (ranks, length (keys corpus)).
Proof.
  intros Hnd Hdom Hfix. unfold sweep.
  edestruct (for_each_inv
    (λ done (st : gmap string Qc * nat), st = (ranks, length done))
    (keys corpus) (sweep_step corpus d) (ranks, 0%nat)) as (st & -> & ->);
    [done| |done].
  intros done x rest st Hl ->.
  assert (x ∈ keys corpus) as Hx by (rewrite Hl; apply elem_of_app; right; by left).
  destruct (pages_lookup corpus ranks Hdom x Hx) as [old Hold].
  rewrite (sweep_step_Ok corpus d x ranks _ old) by eauto using pages_lookup.
  rewrite (Hfix x old Hold), insert_id by done.
  rewrite decide_True by apply Qcabs_diag.
  eexists. split; [done|]. rewrite length_app. simpl. f_equal. lia.
Qed.

(** A fixed point that sums to 1 is what [iterate_pagerank] returns when
    its first distribution is that fixed point. *)
Lemma iterate_pagerank_uniform corpus d fuel :
  is_dict corpus → corpus ≠ [] →
  (∀ p, p ∈ keys corpus →
     new_rank corpus d
       (dict_fill (keys corpus) (1 / Qc_of_nat (length (keys corpus))) ∅) p
     = 1 / Qc_of_nat (length (keys corpus))) →
  iterate_pagerank (S fuel) corpus d
  = Some (Ok (dict_fill (keys corpus)
                (1 / Qc_of_nat (length (keys corpus))) ∅)).
Proof.
  intros Hnd Hne Hfix. unfold iterate_pagerank. rewrite first_distribution_fill.
  set (r0 := dict_fill (keys corpus) (1 / Qc_of_nat (length (keys corpus))) ∅)
    in *.
  cbn [iterate_loop]. rewrite (sweep_fixed_point corpus d r0 Hnd).
  - rewrite decide_True by done.
    assert (dict_sum r0 = 1) as Hsum.
    { unfold r0. rewrite dict_sum_fill_fresh, dict_sum_empty; [|done|done].
      assert (Qc_of_nat (length (keys corpus)) ≠ 0).
      { apply Qc_of_nat_ne_0. unfold keys. by destruct corpus. }
      by field. }
    rewrite normalization_Ok by (by rewrite Hsum). rewrite Hsum.
    do 2 f_equal. apply map_eq. intros k. rewrite lookup_fmap.
    destruct (r0 !! k); [|done]. simpl. by rewrite Qcdiv_right_id.
  - apply first_distribution_dom.
  - intros p v. unfold r0 at 1. rewrite lookup_dict_fill, lookup_empty.
    destruct (decide (p ∈ keys corpus)); [|done]. intros [= <-]. by apply Hfix.
Qed.

(** X12.  With damping factor 0 the links play no part: on every non-empty
    graph the iteration stops after its first sweep and returns the uniform
    distribution, every page at exactly [1/|pages|]. *)
Theorem iterate_pagerank_no_damping corpus fuel :
  is_dict corpus → corpus ≠ [] →
  ∃ ranks, iterate_pagerank (S fuel) corpus 0 = Some (Ok ranks)
    ∧ dom ranks = pages corpus
    ∧ ∀ p, p ∈ keys corpus →
        ranks !! p = Some (1 / Qc_of_nat (length (keys corpus))).
Proof.
  intros Hnd Hne. eexists. split; [apply iterate_pagerank_uniform; try done|].
  - intros p _. unfold new_rank. unfold Qcdiv. ring.
  - split; [apply first_distribution_dom|]. intros p Hp.
    by rewrite lookup_dict_fill, decide_True.
Qed.

Lemma iterate_pagerank_no_damping_witness :
  ∃ ranks, iterate_pagerank 1 chain 0 = Some (Ok ranks)
    ∧ dom ranks = pages chain
    ∧ ∀ p, p ∈ keys chain →
        ranks !! p = Some (1 / Qc_of_nat (length (keys chain))).
Proof.
  apply (iterate_pagerank_no_damping chain 0); [apply chain_dict|done].
Defined.

(** The inbound sum of a constant rank map is the constant times the
    inbound weight. *)
Lemma inbound_sum_const_on ks rest (c : Qc) p :
  (∀ q, q ∈ keys rest → q ∈ ks) →
  inbound_sum rest (dict_fill ks c ∅) p
  = c * inbound_sum rest (dict_fill ks 1 ∅) p.
Proof.
  induction rest as [|[q links] rest IH]; intros Hsub; cbn [inbound_sum].
  - ring.
  - rewrite IH by (intros x Hx; apply Hsub; by right).
    assert (q ∈ ks) as Hq by (apply Hsub; by left).
    rewrite !lookup_dict_fill, !(decide_True (P:=q ∈ ks)) by done.
    destruct (decide (p ∈ links)); cbn [default]; unfold Qcdiv, id; ring.
Qed.

Lemma inbound_sum_const corpus (c : Qc) p :
  inbound_sum corpus (dict_fill (keys corpus) c ∅) p = c * in_weight corpus p.
Proof. unfold in_weight. by apply inbound_sum_const_on. Qed.

(** X13.  On a graph in which the inbound weights of every page sum to 1
    (every cycle, and every graph whose pages all have the same number of
    in-links and out-links), the iteration stops after its first sweep and
    returns the uniform distribution, for every damping factor. *)
Theorem iterate_pagerank_balanced corpus d fuel :
  is_dict corpus → corpus ≠ [] →
  (∀ p, p ∈ keys corpus → in_weight corpus p = 1) →
  ∃ ranks, iterate_pagerank (S fuel) corpus d = Some (Ok ranks)
    ∧ dom ranks = pages corpus
    ∧ ∀ p, p ∈ keys corpus →
        ranks !! p = Some (1 / Qc_of_nat (length (keys corpus))).
Proof.
  intros Hnd Hne Hbal. eexists. split; [apply iterate_pagerank_uniform; try done|].
  - intros p Hp. unfold new_rank. rewrite inbound_sum_const, (Hbal p Hp).
    unfold Qcdiv. ring.
  - split; [apply first_distribution_dom|]. intros p Hp.
    by rewrite lookup_dict_fill, decide_True.
Qed.

(** A cycle of three pages. *)
Lemma iterate_pagerank_balanced_witness :
  ∃ ranks,
    iterate_pagerank 1
      [("A", {["B"]}); ("B", {["C"]}); ("C", {["A"]})]%string half
    = Some (Ok ranks)
    ∧ dom ranks = pages [("A", {["B"]}); ("B", {["C"]}); ("C", {["A"]})]%string
    ∧ ∀ p, p ∈ keys [("A", {["B"]}); ("B", {["C"]}); ("C", {["A"]})]%string →
        ranks !! p
        = Some (1 / Qc_of_nat
                      (length (keys [("A", {["B"]}); ("B", {["C"]});
                                     ("C", {["A"]})]%string))).
Proof.
  apply (iterate_pagerank_balanced
           [("A", {["B"]}); ("B", {["C"]}); ("C", {["A"]})]%string half 0).
  - solve_is_dict.
  - done.
  - intros p Hp. unfold keys in Hp. cbn in Hp.
    repeat (apply elem_of_cons in Hp as [->|Hp]);
      [..|by apply elem_of_nil in Hp]; apply Qc_is_canon; by vm_compute.
Defined.

Lemma single_page_sweep page links d (ranks : gmap string Qc) a :
  page ∉ links → dom ranks = pages [(page, links)] → ranks !! page = Some a →
  sweep [(page, links)] d ranks
  = Ok (<[page := 1 - d]> ranks,
        if decide (Qcabs (a - (1 - d)) < tolerance) then 1%nat else 0%nat).
Proof.
  intros Hself Hdom Ha. unfold sweep. cbn [keys fmap list_fmap fst for_each].
  assert (is_dict [(page, links)]) as Hnd by (unfold is_dict; cbn; apply NoDup_singleton).
  rewrite (sweep_step_Ok [(page, links)] d page ranks 0 a);
    [|done|by apply pages_lookup|by left|done].
  assert (new_rank [(page, links)] d ranks page = 1 - d) as ->.
  { unfold new_rank. cbn [inbound_sum keys fmap list_fmap length].
    rewrite decide_False by done.
    assert (Qc_of_nat 1 = 1) as -> by (by apply Qc_is_canon).
    unfold Qcdiv. rewrite Qcmult_0_r. field. done. }
  done.
Qed.

(** X14.  On a graph with a single page (which does not link to itself)
    the iteration needs at most two sweeps and returns that page with rank
    exactly 1, unless the damping factor is 1: then the final rank is 0 and
    the normalization raises a division by zero. *)
Theorem iterate_pagerank_single_page page links d fuel :
  page ∉ links →
  iterate_pagerank (S (S fuel)) [(page, links)] d
  = Some (if decide (d = 1) then Raise ZeroDivisionError
          else Ok {[page := 1]}).
Proof.
  intros Hself. unfold iterate_pagerank. rewrite first_distribution_fill.
  cbn [keys fmap list_fmap fst length dict_fill foldl].
  rewrite insert_empty.
  assert (∀ v : Qc, dom ({[page := v]} : gmap string Qc) = pages [(page, links)])
    as Hdom.
  { intros v. rewrite dom_singleton_L. unfold pages. cbn.
    by rewrite union_empty_r_L. }
  assert (iterate_loop (S (S fuel)) [(page, links)] d
            {[page := 1 / Qc_of_nat 1]}
          = Some (Ok {[page := 1 - d]})) as ->.
  { cbn [iterate_loop].
    rewrite (single_page_sweep page links d _ (1 / Qc_of_nat 1))
      by (done || apply Hdom || apply lookup_singleton_eq).
    rewrite insert_singleton_eq. cbn [keys fmap list_fmap length].
    destruct (decide (Qcabs (1 / Qc_of_nat 1 - (1 - d)) < tolerance));
      [by rewrite decide_True|].
    rewrite decide_False by done.
    rewrite (single_page_sweep page links d _ (1 - d))
      by (done || apply Hdom || apply lookup_singleton_eq).
    rewrite insert_singleton_eq.
    rewrite (decide_True (P:=Qcabs (1 - d - (1 - d)) < tolerance))
      by apply Qcabs_diag.
    by rewrite decide_True. }
  rewrite normalization_cases.
  rewrite decide_False by apply map_non_empty_singleton.
  assert (dict_sum ({[page := 1 - d]} : gmap string Qc) = 1 - d) as ->.
  { unfold dict_sum, dict_values. rewrite map_to_list_singleton. simpl.
    by rewrite Qcplus_0_r. }
  f_equal. destruct (decide (d = 1)) as [->|Hd].
  - by rewrite decide_True by ring.
  - assert (1 - d ≠ 0) as Hne.
    { intros Heq. apply Hd. rewrite <-(Qcplus_0_l d), <-Heq. ring. }
    rewrite decide_False by done. rewrite map_fmap_singleton.
    do 2 f_equal. by field.
Qed.

Lemma iterate_pagerank_single_page_witness :
  iterate_pagerank 2 [("A"%string, ∅)] half
  = Some (if decide (half = 1) then Raise ZeroDivisionError
          else Ok {["A"%string := 1]}).
Proof.
  apply (iterate_pagerank_single_page "A" ∅ half 0). apply not_elem_of_empty.
Defined.

Lemma Qc_sum_ge_elem l (x : Qc) :
  (∀ y, y ∈ l → 0 ≤ y) → x ∈ l → x ≤ Qc_sum l.
Proof.
  induction l as [|y l IH]; intros Hl Hx; [by apply elem_of_nil in Hx|].
  assert (0 ≤ y) by (apply Hl; by left).
  assert (0 ≤ Qc_sum l) as Hsum.
  { clear IH Hx. induction l as [|z l IH]; [done|]. rewrite Qc_sum_cons.
    apply Qcplus_nonneg_nonneg; [apply Hl; right; by left|].
    apply IH. intros w [->|Hw]%elem_of_cons; apply Hl; [by left|right; by right]. }
  rewrite Qc_sum_cons. apply elem_of_cons in Hx as [->|Hx].
  - rewrite <-(Qcplus_0_r y) at 1. by apply Qcplus_le_mono_l.
  - rewrite <-(Qcplus_0_l x). apply Qcplus_le_compat; [done|].
    apply IH; [|done]. intros w Hw. apply Hl. by right.
Qed.

(** What [iterate_pagerank] returns for a damping factor in [0,1). *)
Lemma iterate_pagerank_ranks fuel corpus d res :
  is_dict corpus → corpus ≠ [] → 0 ≤ d < 1 →
  iterate_pagerank fuel corpus d = Some res →
  ∃ ranks, res = Ok ranks
    ∧ dom ranks = pages corpus
    ∧ (∀ p v, ranks !! p = Some v → 0 < v ≤ 1)
    ∧ dict_sum ranks = 1.
Proof.
  intros Hnd Hne [Hd0 Hd1]. unfold iterate_pagerank.
  rewrite first_distribution_fill.
  destruct (iterate_loop fuel corpus d _) as [res0|] eqn:Hloop; [|done].
  destruct (iterate_loop_bounds fuel corpus d _ res0 Hnd Hne Hd0 Hd1
              (first_distribution_dom corpus))
    as (final & -> & Hdom & Hge); [|done|].
  { intros q v. rewrite lookup_dict_fill, lookup_empty.
    destruct (decide (q ∈ keys corpus)); [|done]. intros [= <-].
    by apply Qcdiv_nat_nonneg. }
  pose proof (base_rank_pos corpus d Hne Hd1) as Hbase.
  assert (∀ k v, final !! k = Some v → 0 < v) as Hpos.
  { intros k v Hk. eapply Qclt_le_trans; [done|eauto]. }
  assert (0 < dict_sum final) as Htotal.
  { apply dict_sum_pos; [by eapply pages_nonempty|done]. }
  assert (dict_sum final ≠ 0) as Hne0.
  { intros Heq. rewrite Heq in Htotal. by apply (irreflexivity Qclt 0). }
  rewrite normalization_Ok by done. intros [= <-].
  eexists. split; [done|]. split; [by rewrite dom_fmap_L|]. split.
  - intros p v. rewrite lookup_fmap.
    destruct (final !! p) as [x|] eqn:Hx; [|done]. intros [= <-]. split.
    + unfold Qcdiv. apply Qcmult_pos_pos; [eauto|by apply Qcinv_pos].
    + apply (Qcmult_le_mono_pos_r _ _ (dict_sum final) Htotal).
      unfold Qcdiv. rewrite <-Qcmult_assoc, Qcmult_inv_l, Qcmult_1_r, Qcmult_1_l
        by done.
      apply Qc_sum_ge_elem.
      * intros y [k Hk]%dict_values_elem. apply Qclt_le_weak. eauto.
      * apply dict_values_elem. by exists p.
  - rewrite dict_sum_scale. by field.
Qed.

(** X15.  For a non-empty graph and a damping factor in [0,1), whatever
    [iterate_pagerank] returns is a distribution over all the pages: it
    raises nothing, its keys are exactly the pages of the graph, every value
    lies in (0,1], and the values sum to exactly 1. *)
Theorem iterate_pagerank_distribution fuel corpus d res :
  is_dict corpus → corpus ≠ [] → 0 ≤ d < 1 →
  iterate_pagerank fuel corpus d = Some res →
  ∃ ranks, res = Ok ranks
    ∧ dom ranks = pages corpus
    ∧ (∀ p v, ranks !! p = Some v → 0 < v ≤ 1)
    ∧ dict_sum ranks = 1.
Proof. apply iterate_pagerank_ranks. Qed.

Lemma iterate_pagerank_distribution_witness :
  ∃ res, iterate_pagerank 3 chain half = Some res
  ∧ ∃ ranks, res = Ok ranks
      ∧ dom ranks = pages chain
      ∧ (∀ p v, ranks !! p = Some v → 0 < v ≤ 1)
      ∧ dict_sum ranks = 1.
Proof.
  destruct (iterate_pagerank 3 chain half) as [res|] eqn:Hres;
    [|by vm_compute in Hres].
  exists res. split; [done|].
  apply (iterate_pagerank_distribution 3 chain half res);
    [apply chain_dict|discriminate|apply half_unit|exact Hres].
Defined.

(** * Beyond the claims: [main] *)


(** X16.  When the directory holds no file whose name ends in [.html],
    [main] fails: the graph is empty and the sampler, called first, raises
    [IndexError]; the iteration is never reached. *)
Theorem main_without_pages findall listing rng fuel :
  (∀ f, f ∈ listing.*1 → is_html f = false) →
  crawl findall listing = Ok []
  ∧ main_ranks findall listing rng fuel = Some (Raise IndexError).
Proof.
  intros Hnone.
  assert (crawl findall listing = Ok []) as Hcrawl.
  { rewrite crawl_filter_html.
    assert (filter (λ fc : string * string, is_html fc.1 = true) listing = [])
      as ->; [|done].
    induction listing as [|[f c] listing IH]; [done|].
    rewrite filter_cons_False.
    - apply IH. intros x Hx. apply Hnone. rewrite fmap_cons. by right.
    - cbn [fst]. rewrite (Hnone f) by (rewrite fmap_cons; by left). done. }
  split; [done|]. unfold main_ranks. by rewrite Hcrawl.
Qed.

Lemma main_without_pages_witness :
  crawl demo_findall [("notes.txt", "txt")]%string = Ok []
  ∧ main_ranks demo_findall [("notes.txt", "txt")]%string (λ i, i) 0
    = Some (Raise IndexError).
Proof.
  apply (main_without_pages demo_findall [("notes.txt", "txt")]%string (λ i, i) 0).
  intros f Hf. rewrite fmap_cons in Hf. cbn in Hf.
  apply list_elem_of_singleton in Hf as ->. reflexivity.
Defined.



(** * Beyond the claims: termination of the iteration *)

(** Linear arithmetic over [Qc], through the underlying fractions. *)
Ltac qc_unfold :=
  unfold Qcle, Qclt, Qcminus, Qcdiv in *;
  repeat match goal with
  | H : @eq Qc ?a ?b |- _ =>
      let H' := fresh in
      assert (H' : (this a == this b)%Q) by (rewrite H; reflexivity); clear H
  end;
  cbn [this Qcplus Qcmult Qcopp Q2Qc] in *;
  rewrite ?Qred_correct in *.
Ltac qc_lra := qc_unfold; lra.

Lemma Qcabs_nonneg x : 0 ≤ Qcabs x.
Proof. unfold Qcabs. destruct (decide (x < 0)) as [H|H%Qcnot_lt_le]; qc_lra. Qed.

Lemma Qcabs_triangle x y : Qcabs (x + y) ≤ Qcabs x + Qcabs y.
Proof.
  unfold Qcabs.
  destruct (decide (x + y < 0)) as [H|H%Qcnot_lt_le],
    (decide (x < 0)) as [Hx|Hx%Qcnot_lt_le],
    (decide (y < 0)) as [Hy|Hy%Qcnot_lt_le]; qc_lra.
Qed.

Lemma Qcabs_sym x y : Qcabs (x - y) = Qcabs (y - x).
Proof.
  unfold Qcabs.
  destruct (decide (x - y < 0)) as [H|H%Qcnot_lt_le],
    (decide (y - x < 0)) as [H'|H'%Qcnot_lt_le]; apply Qc_is_canon; qc_lra.
Qed.

Lemma Qcabs_scale c x : 0 ≤ c → Qcabs (c * x) = c * Qcabs x.
Proof.
  intros Hc. unfold Qcabs.
  destruct (decide (x < 0)) as [Hx|Hx%Qcnot_lt_le],
    (decide (c * x < 0)) as [H|H%Qcnot_lt_le]; try ring.
  - assert (c * x ≤ 0) as H1.
    { rewrite <-(Qcmult_0_r c). apply Qcmult_le_mono_nonneg_l; [done|].
      by apply Qclt_le_weak. }
    assert (c * x = 0) as Hz by (by apply (anti_symm (≤))).
    rewrite Hz. assert (c * - x = - (c * x)) as -> by ring. by rewrite Hz.
  - assert (0 ≤ c * x) as H1 by (by apply Qcmult_nonneg_nonneg).
    destruct (Qclt_not_le _ _ H H1).
Qed.

Lemma link_share_nonneg links p : 0 ≤ link_share links p.
Proof.
  unfold link_share. destruct (decide (p ∈ links)); [|done].
  apply Qcdiv_nat_nonneg. done.
Qed.

Lemma flow_to_nonneg targets links : 0 ≤ flow_to targets links.
Proof.
  unfold flow_to. induction targets as [|t targets IH]; [done|].
  rewrite fmap_cons, Qc_sum_cons.
  apply Qcplus_nonneg_nonneg; [apply link_share_nonneg|done].
Qed.

Lemma flow_to_snoc targets x links :
  flow_to (targets ++ [x]) links = flow_to targets links + link_share links x.
Proof.
  unfold flow_to. rewrite fmap_app, Qc_sum_app. simpl. ring.
Qed.

Lemma flow_to_app t1 t2 links :
  flow_to (t1 ++ t2) links = flow_to t1 links + flow_to t2 links.
Proof. unfold flow_to. by rewrite fmap_app, Qc_sum_app. Qed.

Lemma length_le_size (l : list string) (X : gset string) :
  NoDup l → (∀ x, x ∈ l → x ∈ X) → (length l ≤ size X)%nat.
Proof.
  intros Hnd Hsub. rewrite <-(size_list_to_set (C:=gset string) l) by done.
  apply subseteq_size. intros x Hx%elem_of_list_to_set. auto.
Qed.

(** A page passes on at most its whole rank. *)
Lemma flow_to_le_1 targets links : NoDup targets → flow_to targets links ≤ 1.
Proof.
  intros Hnd.
  assert (flow_to targets links
          = Qc_of_nat (length (filter (λ t, t ∈ links) targets))
            * (1 / Qc_of_nat (size links))) as ->.
  { unfold flow_to. clear Hnd. induction targets as [|t targets IH].
    - simpl. rewrite Qc_of_nat_0. ring.
    - rewrite fmap_cons, Qc_sum_cons, IH. unfold link_share.
      destruct (decide (t ∈ links)).
      + rewrite filter_cons_True by done. cbn [length]. rewrite Qc_of_nat_S. ring.
      + rewrite filter_cons_False by done. ring. }
  assert (length (filter (λ t, t ∈ links) targets) ≤ size links)%nat as Hle.
  { apply length_le_size; [by apply NoDup_filter|].
    by intros x [Hx _]%list_elem_of_filter. }
  destruct (size links) as [|m] eqn:Hsz.
  - assert (length (filter (λ t, t ∈ links) targets) = 0%nat) as -> by lia.
    rewrite Qc_of_nat_0, Qcmult_0_l. done.
  - assert (0 < Qc_of_nat (S m)) as Hpos by (apply Qc_of_nat_pos; lia).
    apply (Qcmult_le_mono_pos_r _ _ (Qc_of_nat (S m)) Hpos).
    unfold Qcdiv. rewrite !Qcmult_1_l, <-Qcmult_assoc, Qcmult_inv_l, Qcmult_1_r.
    + unfold Qc_of_nat. apply (proj1 (Z2Qc_inj_le _ _)). lia.
    + intros Heq. rewrite Heq in Hpos. by apply (irreflexivity Qclt 0).
Qed.

Lemma asum_nonneg p c f : 0 ≤ asum p c f.
Proof.
  induction c as [|[j links] c IH]; simpl; [done|].
  apply Qcplus_nonneg_nonneg; [|done].
  apply Qcmult_nonneg_nonneg; [apply link_share_nonneg|apply Qcabs_nonneg].
Qed.

Lemma asum_app p c1 c2 f : asum p (c1 ++ c2) f = asum p c1 f + asum p c2 f.
Proof.
  induction c1 as [|[j links] c1 IH]; simpl; [ring|]. rewrite IH. ring.
Qed.

Lemma asum_ext p c f g :
  (∀ j, j ∈ keys c → f j = g j) → asum p c f = asum p c g.
Proof.
  induction c as [|[j links] c IH]; intros Hfg; simpl; [done|].
  rewrite (Hfg j) by (by left). rewrite IH; [done|].
  intros k Hk. apply Hfg. by right.
Qed.

Lemma inbound_sum_app c1 c2 rank p :
  inbound_sum (c1 ++ c2) rank p = inbound_sum c1 rank p + inbound_sum c2 rank p.
Proof.
  induction c1 as [|[j links] c1 IH]; simpl; [ring|]. rewrite IH. ring.
Qed.

(** The inbound sums of two rank maps differ by at most the weighted size of
    their difference. *)
Lemma inbound_sum_diff c (mA mB : gmap string Qc) p :
  Qcabs (inbound_sum c mB p - inbound_sum c mA p) ≤ asum p c (change mA mB).
Proof.
  induction c as [|[j links] c IH]; cbn [inbound_sum asum].
  - assert (0 - 0 = 0) as -> by ring. done.
  - assert ((if decide (p ∈ links)
             then default 0 (mB !! j) / Qc_of_nat (size links) else 0)
            + inbound_sum c mB p
            - ((if decide (p ∈ links)
                then default 0 (mA !! j) / Qc_of_nat (size links) else 0)
               + inbound_sum c mA p)
            = link_share links p * change mA mB j
              + (inbound_sum c mB p - inbound_sum c mA p)) as ->.
    { unfold link_share, change, val.
      destruct (decide (p ∈ links)); unfold Qcdiv; ring. }
    eapply Qcle_trans; [apply Qcabs_triangle|].
    rewrite Qcabs_scale by apply link_share_nonneg.
    by apply Qcplus_le_mono_l.
Qed.

Lemma keys_app (c1 c2 : corpus_t) : keys (c1 ++ c2) = keys c1 ++ keys c2.
Proof. unfold keys. apply fmap_app. Qed.

Lemma wnorm_snoc d c x lx f :
  wnorm d (c ++ [(x, lx)]) f = wnorm d c f - d * asum x c f + Qcabs (f x).
Proof.
  induction c as [|[k links] c IH]; cbn [app wnorm asum].
  - unfold flow_to. simpl. ring.
  - rewrite IH, keys_app. cbn [keys fmap list_fmap fst].
    fold (keys c). rewrite flow_to_snoc. ring.
Qed.

Lemma unorm_snoc pre c x lx f :
  unorm pre (c ++ [(x, lx)]) f
  = unorm pre c f + flow_to (pre ++ keys c ++ [x]) lx * Qcabs (f x).
Proof.
  revert pre. induction c as [|[k links] c IH]; intros pre; cbn [app unorm].
  - cbn [keys fmap list_fmap app]. ring.
  - rewrite IH. cbn [keys fmap list_fmap fst]. fold (keys c).
    rewrite <-(app_assoc pre [k]). cbn [app]. ring.
Qed.

Lemma cross_snoc targets x c f :
  cross (targets ++ [x]) c f = cross targets c f + asum x c f.
Proof.
  induction c as [|[k links] c IH]; cbn [cross asum]; [ring|].
  rewrite IH, flow_to_snoc. ring.
Qed.

Lemma cross_nonneg targets c f : 0 ≤ cross targets c f.
Proof.
  induction c as [|[k links] c IH]; simpl; [done|].
  apply Qcplus_nonneg_nonneg; [|done].
  apply Qcmult_nonneg_nonneg; [apply flow_to_nonneg|apply Qcabs_nonneg].
Qed.

Lemma unorm_nonneg pre c f : 0 ≤ unorm pre c f.
Proof.
  revert pre. induction c as [|[k links] c IH]; intros pre; simpl; [done|].
  apply Qcplus_nonneg_nonneg; [|done].
  apply Qcmult_nonneg_nonneg; [apply flow_to_nonneg|apply Qcabs_nonneg].
Qed.

(** The weight of a page in [wnorm] is at least [1 - d]. *)
Lemma wnorm_weight d post links :
  0 ≤ d ≤ 1 → NoDup (keys post) →
  1 - d ≤ 1 - d * flow_to (keys post) links.
Proof.
  intros [Hd0 Hd1] Hnd.
  pose proof (flow_to_le_1 (keys post) links Hnd) as Hle.
  assert (d * flow_to (keys post) links ≤ d * 1) as H
    by (by apply Qcmult_le_mono_nonneg_l).
  rewrite Qcmult_1_r in H. qc_lra.
Qed.

Lemma wnorm_nonneg d c f : 0 ≤ d ≤ 1 → NoDup (keys c) → 0 ≤ wnorm d c f.
Proof.
  intros Hd. induction c as [|[k links] c IH]; [done|].
  cbn [keys fmap list_fmap fst]. fold (keys c). intros [_ Hnd]%NoDup_cons.
  cbn [wnorm]. apply Qcplus_nonneg_nonneg; [|by apply IH].
  apply Qcmult_nonneg_nonneg; [|apply Qcabs_nonneg].
  pose proof (wnorm_weight d c links Hd Hnd). destruct Hd. qc_lra.
Qed.

(** Every single change is bounded by the norm. *)
Lemma wnorm_bounds d c f k :
  0 ≤ d ≤ 1 → NoDup (keys c) → k ∈ keys c →
  (1 - d) * Qcabs (f k) ≤ wnorm d c f.
Proof.
  intros Hd. induction c as [|[j links] c IH]; [by intros _ ?%elem_of_nil|].
  cbn [keys fmap list_fmap fst]. fold (keys c).
  intros [_ Hnd]%NoDup_cons Hk. cbn [wnorm].
  pose proof (wnorm_weight d c links Hd Hnd) as Hw.
  pose proof (Qcabs_nonneg (f j)) as Hj.
  pose proof (wnorm_nonneg d c f Hd Hnd) as Hc.
  apply elem_of_cons in Hk as [->|Hk].
  - assert ((1 - d) * Qcabs (f j)
            ≤ (1 - d * flow_to (keys c) links) * Qcabs (f j)) as H
      by (by apply Qcmult_le_mono_nonneg_r).
    qc_lra.
  - pose proof (IH Hnd Hk) as H.
    assert (0 ≤ (1 - d * flow_to (keys c) links) * Qcabs (f j)) as H'.
    { apply Qcmult_nonneg_nonneg; [|done]. destruct Hd. qc_lra. }
    qc_lra.
Qed.

(** The shares to the pages up to a page are at most its weight. *)
Lemma unorm_le_wnorm d pre c f :
  0 ≤ d ≤ 1 → NoDup (pre ++ keys c) → unorm pre c f ≤ wnorm d c f.
Proof.
  intros Hd. revert pre.
  induction c as [|[k links] c IH]; intros pre Hnd; [done|].
  cbn [keys fmap list_fmap fst] in Hnd. fold (keys c) in Hnd.
  cbn [unorm wnorm].
  assert (NoDup ((pre ++ [k]) ++ keys c)) as Hnd'
    by (by rewrite <-app_assoc).
  pose proof (IH (pre ++ [k]) Hnd') as Htail.
  pose proof (flow_to_le_1 _ links Hnd') as Hle.
  rewrite flow_to_app in Hle.
  pose proof (flow_to_nonneg (keys c) links) as Hf0.
  assert (d * flow_to (keys c) links ≤ 1 * flow_to (keys c) links) as Hdf
    by (apply Qcmult_le_mono_nonneg_r; [done|apply Hd]).
  rewrite Qcmult_1_l in Hdf.
  assert (flow_to (pre ++ [k]) links * Qcabs (f k)
          ≤ (1 - d * flow_to (keys c) links) * Qcabs (f k)) as Hhead.
  { apply Qcmult_le_mono_nonneg_r; [apply Qcabs_nonneg|]. qc_lra. }
  qc_lra.
Qed.
